(** * torchSODE: the batched explicit ODE stepping engine of [src/solver.cu]

    The file embeds the two stepping rules ([euler_method], [rk4_method]),
    the three lane kernels ([general_solver], [compact_diagonal_solver],
    [compact_skew_symmetric_solver]) and the host entry point [solve_cuda],
    and proves the properties the specification states about them.

    Modelling choices.
    - Scalars.  The kernels are templates over [scalar_t]; the arithmetic
      is kept abstract in the class [Arith] (one carrier, the operations
      [+], [*], [/] and the literals [2.0] and [6.0]), which is the
      instantiation [scalar_t = double]: there every operand, the [float]
      step size [dt] included, is a binary64 value.  The instance
      [float_arith] interprets the class by Rocq's primitive binary64
      floats, so the model runs on concrete inputs.
    - Buffers.  The three tensors live in a store [tensors]; the accessors
      carry [RestrictPtrTraits], so the three buffers are kept apart.  Each
      tensor is contiguous and owns its buffer: [F] is given by its rows,
      laid end to end in row-major order.  A packed accessor performs no
      bounds check, only stride arithmetic: [F_a[i][j]] is the element at
      offset [i * stride(0) + j] of the buffer of [F], whether or not [j]
      is a column of [F].  A read past the end of a buffer has no defined
      value: reads return [option] and [None] propagates.  An empty
      [std::function] handle is modelled the same way: invoking it has no
      defined result.  The source has no other way of not returning: it
      validates nothing and raises no error of its own.
    - Parallelism.  A launch runs one thread per (block, thread) index of
      the grid; the model runs them one after the other on the shared
      store, and [run_threads_slot]/[run_threads_pair] show that the result
      does not depend on the order in which the threads are taken.
    - Integers.  Buffer sizes and thread indices are natural numbers (they
      are assumed to fit the C++ [int]/[size_t] types that hold them);
      [steps] is a signed integer. *)

From Stdlib Require Import ZArith Lia.
From Stdlib Require Import Floats.PrimFloat.
From stdpp Require Import base option list strings gmap.

(** ** Scalar arithmetic *)

Class Arith (T : Type) := {
  sadd : T → T → T;
  smul : T → T → T;
  sdiv : T → T → T;
  lit2 : T;   (* the literal 2.0 *)
  lit6 : T    (* the literal 6.0 *)
}.

Infix "⊕" := sadd (at level 50, left associativity).
Infix "⊗" := smul (at level 40, left associativity).
Infix "⊘" := sdiv (at level 40, left associativity).

(** [scalar_t = double]: IEEE-754 binary64. *)
#[export] Instance float_arith : Arith float := {|
  sadd := PrimFloat.add;
  smul := PrimFloat.mul;
  sdiv := PrimFloat.div;
  lit2 := 2%float;
  lit6 := 6%float
|}.

(** [method_t]: the arguments are [F_in], [x0_in], [g_in], [dt]. *)
Definition method_t (T : Type) : Type := T → T → T → T → T.

(** ** The store: the three caller-owned tensors *)

Record tensors (T : Type) := Tensors {
  F_a : list (list T);   (* coupling matrix, row by row *)
  x0_a : list T;         (* state vector, mutated in place *)
  g_a : list T           (* forcing vector *)
}.
Arguments Tensors {T} _ _ _.
Arguments F_a {T} _.
Arguments x0_a {T} _.
Arguments g_a {T} _.

(** [stride(0)] of the contiguous row-major tensor whose rows are [F]: its
    number of columns (the rows of a tensor all have the same length). *)
Definition row_stride {T} (F : list (list T)) : nat :=
  match F with
  | [] => 0
  | row :: _ => length row
  end.

(** [F_a[i][j]]: the accessor computes the offset [i * stride(0) + j *
    stride(1)], with [stride(1) = 1], and reads the buffer there without
    checking [i] or [j] against the sizes; the read is defined inside the
    buffer (the rows of [F] end to end) only. *)
Definition read2 {T} (F : list (list T)) (i j : nat) : option T :=
  concat F !! (i * row_stride F + j).

(** [x0_a[i] = v]; the only assignment to a tensor in the source. *)
Definition write_x0 {T} (i : nat) (v : T) (m : tensors T) : tensors T :=
  {| F_a := F_a m; x0_a := <[i := v]> (x0_a m); g_a := g_a m |}.

(** [for (int i = 0; i < steps; i++) body]: the body runs [steps] times
    when [steps] is positive and not at all otherwise; [n] is
    [Z.to_nat steps]. *)
Fixpoint for_loop {A} (n : nat) (body : A → option A) (a : A) : option A :=
  match n with
  | O => Some a
  | S n' => a' ← body a; for_loop n' body a'
  end.

(** Calling a [std::function] handle; [None] is the empty handle. *)
Definition invoke {T} (method : option (method_t T)) (F_in x0_in g_in dt : T)
  : option T :=
  f ← method; Some (f F_in x0_in g_in dt).

(** Threads of a launch, taken one after the other on the shared store. *)
Fixpoint run_threads {T A} (thread : A → tensors T → option (tensors T))
    (ids : list A) (m : tensors T) : option (tensors T) :=
  match ids with
  | [] => Some m
  | id :: ids' => m' ← thread id m; run_threads thread ids' m'
  end.

(** The (blockIdx.x, threadIdx.x) pairs of a launch [<<<blocks, tpb>>>]. *)
Definition grid (blocks tpb : nat) : list (nat * nat) :=
  flat_map (λ b, map (λ t, (b, t)) (seq 0 tpb)) (seq 0 blocks).

(** [kernel<<<blocks, tpb>>>(...)]; a kernel takes [blockIdx.x],
    [blockDim.x] and [threadIdx.x]. *)
Definition launch {T}
    (kernel : nat → nat → nat → tensors T → option (tensors T))
    (blocks tpb : nat) (m : tensors T) : option (tensors T) :=
  run_threads (λ bt, kernel bt.1 tpb bt.2) (grid blocks tpb) m.

Section Solver.
Context {T : Type} `{Arith T}.

(** ** Integration rules *)

Definition euler_method (F_in x0_in g_in dt : T) : T :=
  (F_in ⊗ g_in) ⊗ dt.

Definition rk4_method (F_in x0_in g_in dt : T) : T :=
  let f1 := (F_in ⊗ g_in) ⊗ dt in
  let c2 := dt ⊗ f1 ⊘ lit2 in
  let f2 := (F_in ⊗ (g_in ⊕ c2)) ⊗ (dt ⊘ lit2) in
  let c3 := dt ⊗ f2 ⊘ lit2 in
  let f3 := (F_in ⊗ (g_in ⊕ c3)) ⊗ (dt ⊘ lit2) in
  let c4 := dt ⊗ f3 in
  let f4 := (F_in ⊗ (g_in ⊕ c4)) ⊗ dt in
  (f1 ⊕ lit2 ⊗ f2 ⊕ lit2 ⊗ f3 ⊕ f4) ⊘ lit6.

(** ** Lane kernels; each is the body of one thread *)

Definition general_solver (method : option (method_t T)) (dt : T)
    (steps : Z) (x0_size : nat) (blockIdx blockDim threadIdx : nat)
    (m : tensors T) : option (tensors T) :=
  let tid := blockIdx * blockDim + threadIdx in
  if decide (tid < x0_size) then
    x0_in ← x0_a m !! tid;
    g_in ← g_a m !! tid;
    F_in ← read2 (F_a m) tid tid;
    x0_in ← for_loop (Z.to_nat steps)
              (λ x0_in, d ← invoke method F_in x0_in g_in dt;
                        Some (x0_in ⊕ d)) x0_in;
    Some (write_x0 tid x0_in m)
  else Some m.

Definition compact_diagonal_solver (method : option (method_t T)) (dt : T)
    (steps : Z) (x0_size : nat) (blockIdx blockDim threadIdx : nat)
    (m : tensors T) : option (tensors T) :=
  let tid := blockIdx * blockDim + threadIdx in
  if decide (tid < x0_size) then
    x0_in ← x0_a m !! tid;
    g_in ← g_a m !! tid;
    F_in ← read2 (F_a m) 0 0;
    x0_in ← for_loop (Z.to_nat steps)
              (λ x0_in, d ← invoke method F_in x0_in g_in dt;
                        Some (x0_in ⊕ d)) x0_in;
    Some (write_x0 tid x0_in m)
  else Some m.

(** One iteration of the block kernel's loop on the pair of locals
    [(x0_in_1, x0_in_2)]. *)
Definition skew_body (method : option (method_t T))
    (UL_v UR_v LL_v LR_v g_in_1 g_in_2 dt : T) (x : T * T) : option (T * T) :=
  let '(x0_in_1, x0_in_2) := x in
  d1 ← invoke method UL_v x0_in_1 g_in_1 dt;
  d2 ← invoke method UR_v x0_in_2 g_in_2 dt;
  let x0_in_1 := x0_in_1 ⊕ d1 ⊕ d2 in
  d3 ← invoke method LL_v x0_in_1 g_in_1 dt;
  d4 ← invoke method LR_v x0_in_2 g_in_2 dt;
  let x0_in_2 := x0_in_1 ⊕ d3 ⊕ d4 in
  Some (x0_in_1, x0_in_2).

Definition compact_skew_symmetric_solver (method : option (method_t T))
    (dt : T) (steps : Z) (x0_size : nat) (blockIdx blockDim threadIdx : nat)
    (m : tensors T) : option (tensors T) :=
  let tid := blockIdx * blockDim + threadIdx in
  if decide (tid < x0_size / 2) then
    g_in_1 ← g_a m !! tid;
    g_in_2 ← g_a m !! (tid + x0_size / 2);
    x0_in_1 ← x0_a m !! tid;
    x0_in_2 ← x0_a m !! (tid + x0_size / 2);
    UL_v ← read2 (F_a m) 0 0;
    UR_v ← read2 (F_a m) 0 1;
    LL_v ← read2 (F_a m) 1 0;
    LR_v ← read2 (F_a m) 1 1;
    x ← for_loop (Z.to_nat steps)
          (skew_body method UL_v UR_v LL_v LR_v g_in_1 g_in_2 dt)
          (x0_in_1, x0_in_2);
    Some (write_x0 (tid + x0_size / 2) x.2 (write_x0 tid x.1 m))
  else Some m.

(** ** Host entry point *)

(** The name-keyed table after the two assignments
    [h_methods["Euler"] = ...; h_methods["RK4"] = ...]; the host handles
    [h_euler_method] and [h_rk4_method] are the copies of the device
    pointers to [euler_method] and [rk4_method]. *)
Definition h_methods : gmap string (method_t T) :=
  <["RK4" := rk4_method]> (<["Euler" := euler_method]> ∅).

Definition threadsPerBlock : nat := 512.

(** [solve_cuda(F, x0, g, dt, steps, name)].  [h_methods[name]] on a
    missing key yields a default-constructed, empty handle, here [None].
    The result is the store after the launch; its [x0_a] is the tensor
    the function returns. *)
Definition solve_cuda (F : list (list T)) (x0 g : list T) (dt : T)
    (steps : Z) (name : string) : option (tensors T) :=
  let d_chosen_method := h_methods !! name in
  let m := Tensors F x0 g in
  let F_size := length F in
  let x0_size := length x0 in
  let blocks := (x0_size + threadsPerBlock - 1) / threadsPerBlock in
  match F_size with
  | 1 => launch (compact_diagonal_solver d_chosen_method dt steps x0_size)
           blocks threadsPerBlock m
  | 2 => launch (compact_skew_symmetric_solver d_chosen_method dt steps x0_size)
           blocks threadsPerBlock m
  | _ => launch (general_solver d_chosen_method dt steps x0_size)
           blocks threadsPerBlock m
  end.

End Solver.

(** ** Threads that own one slot, or one pair of slots, of [x0] *)

Section ThreadShapes.
Context {T : Type}.
Implicit Types (m : tensors T).

(** A thread that reads slot [tid] of [x0], computes [val tid] from it
    and writes the result back to the same slot. *)
Definition slot_thread (val : nat → T → option T) (N tid : nat) m
  : option (tensors T) :=
  if decide (tid < N) then
    x ← x0_a m !! tid; v ← val tid x; Some (write_x0 tid v m)
  else Some m.

(** A thread that owns the slots [tid] and [tid + h]. *)
Definition pair_thread (val : nat → T * T → option (T * T)) (h tid : nat) m
  : option (tensors T) :=
  if decide (tid < h) then
    x1 ← x0_a m !! tid; x2 ← x0_a m !! (tid + h);
    v ← val tid (x1, x2);
    Some (write_x0 (tid + h) v.2 (write_x0 tid v.1 m))
  else Some m.

(** What thread [i] computes from the slots [i] and [i + h] of [m]. *)
Definition pair_val (val : nat → T * T → option (T * T)) (h : nat) m (i : nat)
  : option (T * T) :=
  x1 ← x0_a m !! i; x2 ← x0_a m !! (i + h); val i (x1, x2).

End ThreadShapes.

Section LaneValues.
Context {T : Type} `{Arith T}.

(** What a lane of [general_solver] ([readF tid] is [F_a[tid][tid]]) or of
    [compact_diagonal_solver] ([readF tid] is [F_a[0][0]]) computes from
    the content [x] of its slot: the reads of [g_a] and [F_a], then the
    loop. *)
Definition lane_val (method : option (method_t T)) (dt : T) (steps : Z)
    (readF : nat → option T) (g : list T) (tid : nat) (x : T) : option T :=
  g_in ← g !! tid;
  F_in ← readF tid;
  for_loop (Z.to_nat steps)
    (λ x0_in, d ← invoke method F_in x0_in g_in dt; Some (x0_in ⊕ d)) x.

(** What a lane of [compact_skew_symmetric_solver] computes from the
    content [x] of its two slots; [h] is [x0_size / 2]. *)
Definition skew_val (method : option (method_t T)) (dt : T) (steps : Z)
    (h : nat) (F : list (list T)) (g : list T) (tid : nat) (x : T * T)
  : option (T * T) :=
  g_in_1 ← g !! tid;
  g_in_2 ← g !! (tid + h);
  UL_v ← read2 F 0 0;
  UR_v ← read2 F 0 1;
  LL_v ← read2 F 1 0;
  LR_v ← read2 F 1 1;
  for_loop (Z.to_nat steps)
    (skew_body method UL_v UR_v LL_v LR_v g_in_1 g_in_2 dt) x.

(** ** The specification's data model and formulas *)

(** Section 3: [F] holds every entry the kernel selected by its leading
    dimension reads for [N] lanes: [F[0][0]] when it has one row, the block
    [F[0..1][0..1]] when it has two, and the diagonal entries [F[i][i]],
    [i < N], otherwise. *)
Definition coupling_in_range (F : list (list T)) (N : nat) : Prop :=
  match length F with
  | 1 => is_Some (read2 F 0 0)
  | 2 => is_Some (read2 F 0 0) ∧ is_Some (read2 F 0 1)
         ∧ is_Some (read2 F 1 0) ∧ is_Some (read2 F 1 1)
  | _ => ∀ i, i < N → is_Some (read2 F i i)
  end.

(** A call that does not return normally. *)
Definition fails (r : option (tensors T)) : Prop := r = None.

(** Section 4.1, Euler: [delta = F_value * g_value * dt]. *)
Definition euler_spec (F_value x_current g_value dt : T) : T :=
  F_value ⊗ g_value ⊗ dt.

(** Section 4.1, RK4: the four stages and their weighted mean. *)
Definition rk4_spec (F_value x_current g_value dt : T) : T :=
  let f1 := F_value ⊗ g_value ⊗ dt in
  let c2 := dt ⊗ f1 ⊘ lit2 in
  let f2 := F_value ⊗ (g_value ⊕ c2) ⊗ (dt ⊘ lit2) in
  let c3 := dt ⊗ f2 ⊘ lit2 in
  let f3 := F_value ⊗ (g_value ⊕ c3) ⊗ (dt ⊘ lit2) in
  let c4 := dt ⊗ f3 in
  let f4 := F_value ⊗ (g_value ⊕ c4) ⊗ dt in
  (f1 ⊕ lit2 ⊗ f2 ⊕ lit2 ⊗ f3 ⊕ f4) ⊘ lit6.

(** Section 4.2: repeat [steps] times
    [x_current = x_current + rule(F_value, x_current, g_value, dt)]. *)
Fixpoint lane_loop (rule : method_t T) (F_value g_value dt : T)
    (steps : nat) (x_current : T) : T :=
  match steps with
  | O => x_current
  | S k => lane_loop rule F_value g_value dt k
             (x_current ⊕ rule F_value x_current g_value dt)
  end.

(** Section 4.4, one step of a pair:
    [x1' = x1 + rule(UL, x1, g1, dt) + rule(UR, x2, g2, dt)] and
    [x2' = x1' + rule(LL, x1', g1, dt) + rule(LR, x2, g2, dt)]. *)
Definition block_step (rule : method_t T) (UL UR LL LR g1 g2 dt : T)
    (x : T * T) : T * T :=
  let x1 := x.1 in
  let x2 := x.2 in
  let x1' := x1 ⊕ rule UL x1 g1 dt ⊕ rule UR x2 g2 dt in
  let x2' := x1' ⊕ rule LL x1' g1 dt ⊕ rule LR x2 g2 dt in
  (x1', x2').

(** Section 4.4: [steps] iterations of [block_step]. *)
Fixpoint block_loop (rule : method_t T) (UL UR LL LR g1 g2 dt : T)
    (steps : nat) (x : T * T) : T * T :=
  match steps with
  | O => x
  | S k => block_loop rule UL UR LL LR g1 g2 dt k
             (block_step rule UL UR LL LR g1 g2 dt x)
  end.


End LaneValues.

(** ** Concrete inputs, in binary64 *)

Definition ex_F3 : list (list float) :=
  [[1; 0; 0]; [0; 2; 0]; [0; 0; 3]]%float.
Definition ex_F1 : list (list float) := [[2]]%float.
Definition ex_F2 : list (list float) := [[0; 1]; [1; 0]]%float.
Definition ex_ones2 : list (list float) := [[1; 1]; [1; 1]]%float.
Definition ex_x3 : list float := [1; 2; 3]%float.
Definition ex_g3 : list float := [1; 1; 1]%float.
Definition ex_x4 : list float := [1; 2; 3; 4]%float.
Definition ex_g4 : list float := [1; 1; 1; 1]%float.
Definition ex_dt : float := 0.5%float.

(** * Properties of threads and launches *)

Section Threads.
Context {T : Type}.
Implicit Types (m : tensors T) (ids : list nat).

Lemma slot_thread_lt val N tid m :
  tid < N →
  slot_thread val N tid m
  = x ← x0_a m !! tid; v ← val tid x; Some (write_x0 tid v m).
Proof. intros. unfold slot_thread. by rewrite decide_True. Qed.

Lemma slot_thread_ge val N tid m : ¬ tid < N → slot_thread val N tid m = Some m.
Proof. intros. unfold slot_thread. by rewrite decide_False. Qed.

Lemma pair_thread_lt val h tid m :
  tid < h →
  pair_thread val h tid m
  = x1 ← x0_a m !! tid; x2 ← x0_a m !! (tid + h);
    v ← val tid (x1, x2);
    Some (write_x0 (tid + h) v.2 (write_x0 tid v.1 m)).
Proof. intros. unfold pair_thread. by rewrite decide_True. Qed.

Lemma pair_thread_ge val h tid m : ¬ tid < h → pair_thread val h tid m = Some m.
Proof. intros. unfold pair_thread. by rewrite decide_False. Qed.

Lemma write_x0_lookup_ne i j v m :
  i ≠ j → x0_a (write_x0 i v m) !! j = x0_a m !! j.
Proof. intros Hij. simpl. by apply list_lookup_insert_ne. Qed.

Lemma write_x0_lookup_eq i v m x :
  x0_a m !! i = Some x → x0_a (write_x0 i v m) !! i = Some v.
Proof.
  intros Hx. simpl. apply list_lookup_insert_eq. by eapply lookup_lt_Some.
Qed.

Lemma write_x0_length i v m : length (x0_a (write_x0 i v m)) = length (x0_a m).
Proof. simpl. apply length_insert. Qed.

Lemma run_threads_fmap {A} (f : A → nat) thread (l : list A) m :
  run_threads (λ a, thread (f a)) l m = run_threads thread (f <$> l) m.
Proof.
  revert m. induction l as [|a l IH]; intros m; simpl; [done|].
  destruct (thread (f a) m) as [m'|]; simpl; [apply IH | done].
Qed.

Lemma run_threads_ext {A} (P : tensors T → Prop)
    (th1 th2 : A → tensors T → option (tensors T)) (ids : list A) m :
  P m →
  (∀ i m1, P m1 → th1 i m1 = th2 i m1) →
  (∀ i m1 m2, P m1 → th2 i m1 = Some m2 → P m2) →
  run_threads th1 ids m = run_threads th2 ids m.
Proof.
  intros HP Heq Hpres. revert m HP.
  induction ids as [|i ids IH]; intros m HP; simpl; [done|].
  rewrite (Heq i m HP).
  destruct (th2 i m) as [m'|] eqn:E; simpl; [|done].
  apply IH. by eapply Hpres.
Qed.

(** *** One slot per thread *)

Lemma slot_thread_frame val N tid m m' :
  slot_thread val N tid m = Some m' →
  F_a m' = F_a m ∧ g_a m' = g_a m ∧ length (x0_a m') = length (x0_a m).
Proof.
  unfold slot_thread. case_decide; [|by intros [= <-]].
  destruct (x0_a m !! tid) as [x|]; simpl; [|done].
  destruct (val tid x) as [v|]; simpl; [|done].
  intros [= <-]. by rewrite write_x0_length.
Qed.

(** Threads with distinct ids, in any order: slot [i] ends up with
    [val i] of its initial content when thread [i] is among them and is
    a lane ([i < N]), and is left alone otherwise. *)
Lemma run_threads_slot val N ids :
  NoDup ids → ∀ m,
  (∀ i, i ∈ ids → i < N → is_Some (x0_a m !! i ≫= val i)) →
  ∃ x0', run_threads (slot_thread val N) ids m
           = Some (Tensors (F_a m) x0' (g_a m))
       ∧ length x0' = length (x0_a m)
       ∧ ∀ i, x0' !! i = if decide (i ∈ ids ∧ i < N)
                         then x0_a m !! i ≫= val i else x0_a m !! i.
Proof.
  induction 1 as [|id ids Hnin Hnd IH]; intros m Hdef.
  - exists (x0_a m). split; [by destruct m|]. split; [done|].
    intros i. case_decide as Hi; [|done]. destruct Hi as [Hi _].
    by apply elem_of_nil in Hi.
  - simpl. destruct (decide (id < N)) as [Hlt|Hge].
    + rewrite slot_thread_lt by done.
      destruct (Hdef id) as [v Hv]; [by left | done |].
      destruct (x0_a m !! id) as [x|] eqn:Hx; simpl in Hv; [|done].
      simpl. rewrite Hv. simpl.
      destruct (IH (write_x0 id v m)) as (x0' & Hrun & Hlen & Hlook).
      { intros i Hi HiN. rewrite write_x0_lookup_ne; [|by intros ->].
        apply Hdef; [by right | done]. }
      exists x0'. split; [exact Hrun|]. split.
      { by rewrite Hlen, write_x0_length. }
      intros i. rewrite Hlook. destruct (decide (i = id)) as [->|Hne].
      * rewrite (write_x0_lookup_eq _ _ _ _ Hx), Hx. simpl.
        rewrite decide_False by (intros [? _]; contradiction).
        rewrite decide_True by (split; [by left | done]). by rewrite Hv.
      * rewrite write_x0_lookup_ne by done.
        destruct (decide (i ∈ ids ∧ i < N)) as [[Hi HiN]|Hn].
        -- by rewrite decide_True by (split; [by right | done]).
        -- rewrite decide_False; [done|].
           intros [[?|?]%elem_of_cons ?]; [done | by apply Hn].
    + rewrite slot_thread_ge by done. simpl.
      destruct (IH m) as (x0' & Hrun & Hlen & Hlook).
      { intros i Hi HiN. apply Hdef; [by right | done]. }
      exists x0'. split; [exact Hrun|]. split; [done|].
      intros i. rewrite Hlook.
      destruct (decide (i ∈ ids ∧ i < N)) as [[Hi HiN]|Hn].
      * by rewrite decide_True by (split; [by right | done]).
      * rewrite decide_False; [done|].
        intros [[->|?]%elem_of_cons ?]; [done | by apply Hn].
Qed.

(** A lane whose computation has no defined result leaves the whole
    launch without one. *)
Lemma run_threads_slot_None val N ids : ∀ m i,
  i ∈ ids → i < N → x0_a m !! i ≫= val i = None →
  run_threads (slot_thread val N) ids m = None.
Proof.
  induction ids as [|id ids IH]; intros m i Hi HiN Hnone.
  { by apply elem_of_nil in Hi. }
  simpl. destruct (decide (id = i)) as [->|Hne].
  - unfold slot_thread. rewrite decide_True by done.
    destruct (x0_a m !! i) as [x|]; simpl in *; [|done].
    by rewrite Hnone.
  - apply elem_of_cons in Hi as [->|Hi]; [done|].
    destruct (slot_thread val N id m) as [m'|] eqn:E; simpl; [|done].
    apply (IH m' i Hi HiN). rewrite <- Hnone. f_equal.
    unfold slot_thread in E. case_decide; [|by simplify_eq].
    destruct (x0_a m !! id) as [x|]; simpl in E; [|done].
    destruct (val id x) as [v|]; simpl in E; [|done].
    simplify_eq. by apply write_x0_lookup_ne.
Qed.

(** *** One pair of slots per thread *)

Lemma pair_thread_val val h tid m :
  tid < h →
  pair_thread val h tid m
  = v ← pair_val val h m tid;
    Some (write_x0 (tid + h) v.2 (write_x0 tid v.1 m)).
Proof.
  intros Hlt. rewrite pair_thread_lt by done. unfold pair_val.
  destruct (x0_a m !! tid); simpl; [|done].
  by destruct (x0_a m !! (tid + h)).
Qed.

Lemma pair_val_None val h m i :
  (∀ x, val i x = None) → pair_val val h m i = None.
Proof.
  intros Hnone. unfold pair_val.
  destruct (x0_a m !! i); simpl; [|done].
  destruct (x0_a m !! (i + h)); simpl; [|done]. apply Hnone.
Qed.

Lemma pair_val_write val h m id v1 v2 i :
  id < h → i < h → i ≠ id →
  pair_val val h (write_x0 (id + h) v2 (write_x0 id v1 m)) i
  = pair_val val h m i.
Proof.
  intros Hid Hi Hne. unfold pair_val.
  rewrite !write_x0_lookup_ne by lia. done.
Qed.

Lemma pair_thread_frame val h tid m m' :
  pair_thread val h tid m = Some m' →
  F_a m' = F_a m ∧ g_a m' = g_a m ∧ length (x0_a m') = length (x0_a m).
Proof.
  destruct (decide (tid < h)).
  - rewrite pair_thread_val by done.
    destruct (pair_val val h m tid) as [v|]; simpl; [|done].
    intros [= <-]. by rewrite !write_x0_length.
  - rewrite pair_thread_ge by done. by intros [= <-].
Qed.

(** Threads with distinct ids, in any order: the pair [(i, i + h)] of a
    thread [i < h] among them ends up with [val i] of its initial
    content, and every slot outside those pairs is left alone. *)
Lemma run_threads_pair val h ids :
  NoDup ids → ∀ m,
  (∀ i, i ∈ ids → i < h → is_Some (pair_val val h m i)) →
  ∃ x0', run_threads (pair_thread val h) ids m
           = Some (Tensors (F_a m) x0' (g_a m))
       ∧ length x0' = length (x0_a m)
       ∧ (∀ i, i ∈ ids → i < h →
            x0' !! i = fst <$> pair_val val h m i
            ∧ x0' !! (i + h) = snd <$> pair_val val h m i)
       ∧ (∀ j, (∀ i, i ∈ ids → i < h → j ≠ i ∧ j ≠ i + h) →
            x0' !! j = x0_a m !! j).
Proof.
  induction 1 as [|id ids Hnin Hnd IH]; intros m Hdef.
  - exists (x0_a m). split; [by destruct m|]. split; [done|].
    split; [|done]. intros i Hi. by apply elem_of_nil in Hi.
  - simpl. destruct (decide (id < h)) as [Hlt|Hge].
    + rewrite pair_thread_val by done.
      destruct (Hdef id) as [v Hv]; [by left | done |].
      rewrite Hv. simpl.
      set (m1 := write_x0 (id + h) v.2 (write_x0 id v.1 m)).
      assert (Hx1 : is_Some (x0_a m !! id) ∧ is_Some (x0_a m !! (id + h))).
      { unfold pair_val in Hv.
        destruct (x0_a m !! id); simpl in Hv; [|done].
        destruct (x0_a m !! (id + h)); simpl in Hv; [|done]. eauto. }
      destruct Hx1 as [[x1 Hx1] [x2 Hx2]].
      assert (Hm1a : x0_a m1 !! id = Some v.1).
      { unfold m1. rewrite write_x0_lookup_ne by lia.
        by eapply write_x0_lookup_eq. }
      assert (Hm1b : x0_a m1 !! (id + h) = Some v.2).
      { unfold m1. eapply write_x0_lookup_eq.
        rewrite write_x0_lookup_ne by lia. exact Hx2. }
      destruct (IH m1) as (x0' & Hrun & Hlen & Hpairs & Hframe).
      { intros i Hi Hih. unfold m1.
        rewrite pair_val_write by (try done; by intros ->).
        apply Hdef; [by right | done]. }
      assert (Hout : ∀ i, i ∈ ids → i < h → id ≠ i ∧ id ≠ i + h).
      { intros i Hi Hih. split; [by intros -> | lia]. }
      assert (Hout' : ∀ i, i ∈ ids → i < h → id + h ≠ i ∧ id + h ≠ i + h).
      { intros i Hi Hih. split; [lia|]. intros ?.
        assert (id = i) as -> by lia. done. }
      exists x0'. split; [exact Hrun|]. split.
      { rewrite Hlen. unfold m1. by rewrite !write_x0_length. }
      split.
      * intros i [->|Hi]%elem_of_cons Hih.
        -- rewrite (Hframe id Hout), (Hframe (id + h) Hout'), Hv. done.
        -- destruct (Hpairs i Hi Hih) as [Ha Hb]. rewrite Ha, Hb.
           unfold m1. rewrite pair_val_write by (try done; by intros ->).
           done.
      * intros j Hj. rewrite Hframe.
        -- destruct (Hj id) as [? ?]; [by left | done |].
           unfold m1. by rewrite !write_x0_lookup_ne by done.
        -- intros i Hi Hih. apply Hj; [by right | done].
    + rewrite pair_thread_ge by done. simpl.
      destruct (IH m) as (x0' & Hrun & Hlen & Hpairs & Hframe).
      { intros i Hi Hih. apply Hdef; [by right | done]. }
      exists x0'. split; [exact Hrun|]. split; [done|]. split.
      * intros i [->|Hi]%elem_of_cons Hih; [done | by apply Hpairs].
      * intros j Hj. apply Hframe. intros i Hi Hih.
        apply Hj; [by right | done].
Qed.

(** A pair whose computation has no defined result leaves the whole
    launch without one. *)
Lemma run_threads_pair_None val h ids : ∀ m i,
  i ∈ ids → i < h → pair_val val h m i = None →
  run_threads (pair_thread val h) ids m = None.
Proof.
  induction ids as [|id ids IH]; intros m i Hi Hih Hnone.
  { by apply elem_of_nil in Hi. }
  simpl. destruct (decide (id = i)) as [->|Hne].
  - rewrite pair_thread_val by done. by rewrite Hnone.
  - apply elem_of_cons in Hi as [->|Hi]; [done|].
    destruct (pair_thread val h id m) as [m'|] eqn:E; simpl; [|done].
    apply (IH m' i Hi Hih). rewrite <- Hnone.
    destruct (decide (id < h)) as [Hlt|Hge].
    + rewrite pair_thread_val in E by done.
      destruct (pair_val val h m id) as [v|]; simpl in E; [|done].
      simplify_eq. by apply pair_val_write.
    + rewrite pair_thread_ge in E by done. by simplify_eq.
Qed.

(** With [h = 0] no thread owns a pair. *)
Lemma run_threads_pair_0 val ids m :
  run_threads (pair_thread val 0) ids m = Some m.
Proof.
  induction ids as [|id ids IH]; cbn [run_threads]; [done|].
  rewrite pair_thread_ge by lia. simpl. apply IH.
Qed.

(** Threads whose computation hands back the content it was given leave
    the store as it was. *)
Lemma write_x0_id i x m : x0_a m !! i = Some x → write_x0 i x m = m.
Proof.
  intros Hx. destruct m as [F x0 g]. unfold write_x0. simpl in *.
  by rewrite list_insert_id.
Qed.

Lemma run_threads_slot_id val N ids :
  (∀ i x v, val i x = Some v → v = x) →
  ∀ m m', run_threads (slot_thread val N) ids m = Some m' → m' = m.
Proof.
  intros Hid. induction ids as [|id ids IH]; intros m m' Hrun; simpl in Hrun.
  { by simplify_eq. }
  destruct (slot_thread val N id m) as [m1|] eqn:E; simpl in Hrun; [|done].
  apply IH in Hrun as ->. unfold slot_thread in E.
  case_decide; [|by simplify_eq].
  destruct (x0_a m !! id) as [x|] eqn:Hx; simpl in E; [|done].
  destruct (val id x) as [v|] eqn:Hv; simpl in E; [|done].
  apply Hid in Hv as ->. simplify_eq. by apply write_x0_id.
Qed.

Lemma run_threads_pair_id val h ids :
  (∀ i x v, val i x = Some v → v = x) →
  ∀ m m', run_threads (pair_thread val h) ids m = Some m' → m' = m.
Proof.
  intros Hid. induction ids as [|id ids IH]; intros m m' Hrun; simpl in Hrun.
  { by simplify_eq. }
  destruct (pair_thread val h id m) as [m1|] eqn:E; simpl in Hrun; [|done].
  apply IH in Hrun as ->. unfold pair_thread in E.
  case_decide; [|by simplify_eq].
  destruct (x0_a m !! id) as [x1|] eqn:Hx1; simpl in E; [|done].
  destruct (x0_a m !! (id + h)) as [x2|] eqn:Hx2; simpl in E; [|done].
  destruct (val id (x1, x2)) as [v|] eqn:Hv; simpl in E; [|done].
  apply Hid in Hv as ->. simplify_eq. simpl.
  rewrite (write_x0_id id x1 m Hx1). by apply write_x0_id.
Qed.

(** The final state depends on the computations of the lanes only, not
    on what else the store holds. *)
Lemma run_threads_slot_x0 val val' N ids : ∀ m m',
  x0_a m = x0_a m' →
  (∀ i x, i < N → val i x = val' i x) →
  x0_a <$> run_threads (slot_thread val N) ids m
  = x0_a <$> run_threads (slot_thread val' N) ids m'.
Proof.
  induction ids as [|id ids IH]; intros m m' Hx0 Hval; simpl.
  { by rewrite Hx0. }
  destruct (decide (id < N)) as [Hlt|Hge];
    [|rewrite !slot_thread_ge by done; by apply IH].
  rewrite !slot_thread_lt by done.
  rewrite <- Hx0. destruct (x0_a m !! id) as [x|]; simpl; [|done].
  rewrite <- Hval by done. destruct (val id x) as [v|]; simpl; [|done].
  apply IH; [|done]. simpl. by rewrite Hx0.
Qed.

Lemma run_threads_pair_x0 val val' h ids : ∀ m m',
  x0_a m = x0_a m' →
  (∀ i x, i < h → val i x = val' i x) →
  x0_a <$> run_threads (pair_thread val h) ids m
  = x0_a <$> run_threads (pair_thread val' h) ids m'.
Proof.
  induction ids as [|id ids IH]; intros m m' Hx0 Hval; simpl.
  { by rewrite Hx0. }
  destruct (decide (id < h)) as [Hlt|Hge];
    [|rewrite !pair_thread_ge by done; by apply IH].
  rewrite !pair_thread_lt by done.
  rewrite <- Hx0. destruct (x0_a m !! id) as [x1|]; simpl; [|done].
  destruct (x0_a m !! (id + h)) as [x2|]; simpl; [|done].
  rewrite <- Hval by done. destruct (val id (x1, x2)) as [v|]; simpl; [|done].
  apply IH; [|done]. simpl. by rewrite Hx0.
Qed.

Lemma run_threads_frame {A} (thread : A → tensors T → option (tensors T)) :
  (∀ id m m', thread id m = Some m' →
     F_a m' = F_a m ∧ g_a m' = g_a m ∧ length (x0_a m') = length (x0_a m)) →
  ∀ (l : list A) m m', run_threads thread l m = Some m' →
     F_a m' = F_a m ∧ g_a m' = g_a m ∧ length (x0_a m') = length (x0_a m).
Proof.
  intros Hth. induction l as [|id l IH]; intros m m' Hrun; simpl in Hrun.
  { by simplify_eq. }
  destruct (thread id m) as [m1|] eqn:E; simpl in Hrun; [|done].
  apply Hth in E as (HF & Hg & Hlen). apply IH in Hrun as (-> & -> & ->).
  done.
Qed.


End Threads.

(** ** The grid of a launch *)

Lemma grid_tids blocks tpb :
  (λ bt : nat * nat, bt.1 * tpb + bt.2) <$> grid blocks tpb
  = seq 0 (blocks * tpb).
Proof.
  unfold grid. induction blocks as [|n IH]; [done|].
  rewrite seq_S, flat_map_app, fmap_app, IH.
  replace (S n * tpb) with (n * tpb + tpb) by lia.
  rewrite seq_app. f_equal. cbn [flat_map].
  rewrite app_nil_r, <- list_fmap_compose.
  replace (0 + n * tpb) with (n * tpb + 0) by lia.
  by rewrite <- fmap_add_seq.
Qed.

Lemma blocks_cover N :
  N ≤ (N + threadsPerBlock - 1) / threadsPerBlock * threadsPerBlock.
Proof.
  unfold threadsPerBlock.
  pose proof (Nat.div_mod_eq (N + 512 - 1) 512).
  pose proof (Nat.mod_upper_bound (N + 512 - 1) 512). lia.
Qed.

Section Launch.
Context {T : Type}.
Implicit Types (m : tensors T).

Lemma launch_slot kernel (val : nat → T → option T) N blocks tpb m :
  (∀ b t m', F_a m' = F_a m → g_a m' = g_a m →
     kernel b tpb t m' = slot_thread val N (b * tpb + t) m') →
  launch kernel blocks tpb m
  = run_threads (slot_thread val N) (seq 0 (blocks * tpb)) m.
Proof.
  intros Hk. unfold launch. rewrite <- grid_tids, <- run_threads_fmap.
  apply (run_threads_ext (λ m', F_a m' = F_a m ∧ g_a m' = g_a m)).
  - done.
  - intros [b t] m1 [HF Hg]. by apply Hk.
  - intros [b t] m1 m2 [HF Hg] Hth. simpl in Hth.
    apply slot_thread_frame in Hth as (-> & -> & _). done.
Qed.

Lemma launch_pair kernel (val : nat → T * T → option (T * T)) h blocks tpb m :
  (∀ b t m', F_a m' = F_a m → g_a m' = g_a m →
     kernel b tpb t m' = pair_thread val h (b * tpb + t) m') →
  launch kernel blocks tpb m
  = run_threads (pair_thread val h) (seq 0 (blocks * tpb)) m.
Proof.
  intros Hk. unfold launch. rewrite <- grid_tids, <- run_threads_fmap.
  apply (run_threads_ext (λ m', F_a m' = F_a m ∧ g_a m' = g_a m)).
  - done.
  - intros [b t] m1 [HF Hg]. by apply Hk.
  - intros [b t] m1 m2 [HF Hg] Hth. simpl in Hth.
    apply pair_thread_frame in Hth as (-> & -> & _). done.
Qed.

(** A launch of single-slot threads over enough blocks to cover [x0]. *)
Lemma launch_slot_result kernel (val : nat → T → option T) F x0 g :
  (∀ b t m', F_a m' = F → g_a m' = g →
     kernel b threadsPerBlock t m'
     = slot_thread val (length x0) (b * threadsPerBlock + t) m') →
  (∀ i x, x0 !! i = Some x → is_Some (val i x)) →
  ∃ x0', launch kernel ((length x0 + threadsPerBlock - 1) / threadsPerBlock)
           threadsPerBlock (Tensors F x0 g) = Some (Tensors F x0' g)
       ∧ length x0' = length x0
       ∧ ∀ i x, x0 !! i = Some x → x0' !! i = val i x.
Proof.
  intros Hk Hdef. rewrite (launch_slot _ val (length x0)) by exact Hk.
  destruct (run_threads_slot val (length x0)
              (seq 0 ((length x0 + threadsPerBlock - 1) / threadsPerBlock
                      * threadsPerBlock))
              (NoDup_seq _ _) (Tensors F x0 g)) as (x0' & Hrun & Hlen & Hlook).
  { intros i _ Hi. simpl.
    destruct (lookup_lt_is_Some_2 x0 i Hi) as [x Hx]. rewrite Hx. simpl.
    eauto. }
  exists x0'. split; [exact Hrun|]. split; [exact Hlen|].
  intros i x Hx. rewrite Hlook. simpl. rewrite Hx. simpl.
  apply decide_True. pose proof (lookup_lt_Some _ _ _ Hx).
  pose proof (blocks_cover (length x0)) as Hcov.
  set (n := _ * threadsPerBlock) in *.
  split; [apply elem_of_seq; lia | done].
Qed.

Lemma launch_slot_None kernel (val : nat → T → option T) F x0 g i x :
  (∀ b t m', F_a m' = F → g_a m' = g →
     kernel b threadsPerBlock t m'
     = slot_thread val (length x0) (b * threadsPerBlock + t) m') →
  x0 !! i = Some x → val i x = None →
  launch kernel ((length x0 + threadsPerBlock - 1) / threadsPerBlock)
    threadsPerBlock (Tensors F x0 g) = None.
Proof.
  intros Hk Hx Hnone. rewrite (launch_slot _ val (length x0)) by exact Hk.
  pose proof (lookup_lt_Some _ _ _ Hx).
  pose proof (blocks_cover (length x0)) as Hcov.
  set (n := _ * threadsPerBlock) in *.
  apply (run_threads_slot_None _ _ _ _ i); [apply elem_of_seq; lia | done |].
  simpl. rewrite Hx. done.
Qed.

(** A launch of pair threads, [h] being half the length of [x0]. *)
Lemma launch_pair_result kernel (val : nat → T * T → option (T * T)) F x0 g :
  let h := length x0 / 2 in
  (∀ b t m', F_a m' = F → g_a m' = g →
     kernel b threadsPerBlock t m'
     = pair_thread val h (b * threadsPerBlock + t) m') →
  (∀ i, i < h → is_Some (pair_val val h (Tensors F x0 g) i)) →
  ∃ x0', launch kernel ((length x0 + threadsPerBlock - 1) / threadsPerBlock)
           threadsPerBlock (Tensors F x0 g) = Some (Tensors F x0' g)
       ∧ length x0' = length x0
       ∧ (∀ i, i < h →
            x0' !! i = fst <$> pair_val val h (Tensors F x0 g) i
            ∧ x0' !! (i + h) = snd <$> pair_val val h (Tensors F x0 g) i)
       ∧ (∀ j, 2 * h ≤ j → x0' !! j = x0 !! j).
Proof.
  intros h Hk Hdef. rewrite (launch_pair _ val h) by exact Hk.
  destruct (run_threads_pair val h
              (seq 0 ((length x0 + threadsPerBlock - 1) / threadsPerBlock
                      * threadsPerBlock))
              (NoDup_seq _ _) (Tensors F x0 g))
    as (x0' & Hrun & Hlen & Hpairs & Hframe).
  { intros i _ Hi. by apply Hdef. }
  exists x0'. split; [exact Hrun|]. split; [exact Hlen|]. split.
  - intros i Hi. apply Hpairs; [|done].
    pose proof (blocks_cover (length x0)) as Hcov.
    set (n := _ * threadsPerBlock) in *.
    pose proof (Nat.Div0.div_le_upper_bound (length x0) 2 (length x0)).
    apply elem_of_seq. unfold h in Hi. lia.
  - intros j Hj. apply Hframe. intros i _ Hi. lia.
Qed.

Lemma launch_pair_None kernel (val : nat → T * T → option (T * T)) F x0 g i :
  let h := length x0 / 2 in
  (∀ b t m', F_a m' = F → g_a m' = g →
     kernel b threadsPerBlock t m'
     = pair_thread val h (b * threadsPerBlock + t) m') →
  i < h → pair_val val h (Tensors F x0 g) i = None →
  launch kernel ((length x0 + threadsPerBlock - 1) / threadsPerBlock)
    threadsPerBlock (Tensors F x0 g) = None.
Proof.
  intros h Hk Hi Hnone. rewrite (launch_pair _ val h) by exact Hk.
  pose proof (blocks_cover (length x0)) as Hcov.
  set (n := _ * threadsPerBlock) in *.
  pose proof (Nat.Div0.div_le_upper_bound (length x0) 2 (length x0)).
  apply (run_threads_pair_None _ _ _ _ i); [|done..].
  apply elem_of_seq. unfold h in Hi. lia.
Qed.

End Launch.

(** ** The kernels as slot and pair threads *)

Section Kernels.
Context {T : Type} `{Arith T}.
Implicit Types (m : tensors T) (rule : method_t T).

Lemma for_loop_rule rule Fv gv dt n x :
  for_loop n
    (λ x0_in, d ← invoke (Some rule) Fv x0_in gv dt; Some (x0_in ⊕ d)) x
  = Some (lane_loop rule Fv gv dt n x).
Proof.
  revert x. induction n as [|n IH]; intros x; simpl; [done | apply IH].
Qed.

Lemma for_loop_skew rule UL UR LL LR g1 g2 dt n x :
  for_loop n (skew_body (Some rule) UL UR LL LR g1 g2 dt) x
  = Some (block_loop rule UL UR LL LR g1 g2 dt n x).
Proof.
  revert x. induction n as [|n IH]; intros [x1 x2]; simpl; [done | apply IH].
Qed.

Lemma general_solver_slot method dt steps N b bd t m :
  general_solver method dt steps N b bd t m
  = slot_thread
      (lane_val method dt steps (λ tid, read2 (F_a m) tid tid) (g_a m))
      N (b * bd + t) m.
Proof.
  unfold general_solver, slot_thread, lane_val. case_decide; [|done].
  destruct (x0_a m !! _); simpl; [|done].
  destruct (g_a m !! _); simpl; [|done].
  by destruct (read2 _ _ _).
Qed.

Lemma compact_diagonal_solver_slot method dt steps N b bd t m :
  compact_diagonal_solver method dt steps N b bd t m
  = slot_thread (lane_val method dt steps (λ _, read2 (F_a m) 0 0) (g_a m))
      N (b * bd + t) m.
Proof.
  unfold compact_diagonal_solver, slot_thread, lane_val. case_decide; [|done].
  destruct (x0_a m !! _); simpl; [|done].
  destruct (g_a m !! _); simpl; [|done].
  by destruct (read2 _ _ _).
Qed.

Lemma compact_skew_symmetric_solver_pair method dt steps N b bd t m :
  compact_skew_symmetric_solver method dt steps N b bd t m
  = pair_thread (skew_val method dt steps (N / 2) (F_a m) (g_a m))
      (N / 2) (b * bd + t) m.
Proof.
  unfold compact_skew_symmetric_solver, pair_thread, skew_val.
  case_decide; [|done].
  destruct (g_a m !! (b * bd + t)), (g_a m !! (b * bd + t + N / 2)),
    (x0_a m !! (b * bd + t)), (x0_a m !! (b * bd + t + N / 2));
    simpl; try done.
  destruct (read2 (F_a m) 0 0); simpl; [|done].
  destruct (read2 (F_a m) 0 1); simpl; [|done].
  destruct (read2 (F_a m) 1 0); simpl; [|done].
  by destruct (read2 (F_a m) 1 1).
Qed.

(** The three branches of the [switch] in [solve_cuda]. *)
Lemma solve_cuda_general F x0 g dt steps name :
  length F ≠ 1 → length F ≠ 2 →
  solve_cuda F x0 g dt steps name
  = launch (general_solver (h_methods !! name) dt steps (length x0))
      ((length x0 + threadsPerBlock - 1) / threadsPerBlock) threadsPerBlock
      (Tensors F x0 g).
Proof.
  intros H1 H2. unfold solve_cuda.
  destruct (length F) as [|[|[|n]]]; done.
Qed.

Lemma solve_cuda_diagonal F x0 g dt steps name :
  length F = 1 →
  solve_cuda F x0 g dt steps name
  = launch (compact_diagonal_solver (h_methods !! name) dt steps (length x0))
      ((length x0 + threadsPerBlock - 1) / threadsPerBlock) threadsPerBlock
      (Tensors F x0 g).
Proof. intros H1. unfold solve_cuda. by rewrite H1. Qed.

Lemma solve_cuda_block F x0 g dt steps name :
  length F = 2 →
  solve_cuda F x0 g dt steps name
  = launch
      (compact_skew_symmetric_solver (h_methods !! name) dt steps (length x0))
      ((length x0 + threadsPerBlock - 1) / threadsPerBlock) threadsPerBlock
      (Tensors F x0 g).
Proof. intros H1. unfold solve_cuda. by rewrite H1. Qed.

(** *** The method table *)

Lemma h_methods_euler : (h_methods (T:=T)) !! "Euler" = Some euler_method.
Proof. unfold h_methods. by rewrite lookup_insert_ne, lookup_insert_eq. Qed.

Lemma h_methods_rk4 : (h_methods (T:=T)) !! "RK4" = Some rk4_method.
Proof. unfold h_methods. by rewrite lookup_insert_eq. Qed.

Lemma h_methods_unknown name :
  name ≠ "Euler" → name ≠ "RK4" → (h_methods (T:=T)) !! name = None.
Proof.
  intros H1 H2. unfold h_methods.
  by rewrite !lookup_insert_ne, lookup_empty.
Qed.

(** *** What one lane computes *)

Lemma lane_val_rule rule dt steps readF g i x g_i F_i :
  g !! i = Some g_i → readF i = Some F_i →
  lane_val (Some rule) dt steps readF g i x
  = Some (lane_loop rule F_i g_i dt (Z.to_nat steps) x).
Proof.
  intros Hg HF. unfold lane_val. rewrite Hg, HF. simpl. apply for_loop_rule.
Qed.

Lemma lane_val_nonpos method dt steps readF g i x :
  (steps ≤ 0)%Z → is_Some (g !! i) → is_Some (readF i) →
  lane_val method dt steps readF g i x = Some x.
Proof.
  intros Hs [g_i Hg] [F_i HF]. unfold lane_val. rewrite Hg, HF. simpl.
  by rewrite Z2Nat.nonpos.
Qed.

Lemma lane_val_nonpos_id method dt steps readF g i x v :
  (steps ≤ 0)%Z → lane_val method dt steps readF g i x = Some v → v = x.
Proof.
  intros Hs. unfold lane_val. rewrite Z2Nat.nonpos by done.
  destruct (g !! i); simpl; [|done]. destruct (readF i); simpl; [|done].
  congruence.
Qed.

Lemma lane_val_empty_pos dt steps readF g i x :
  (0 < steps)%Z → lane_val None dt steps readF g i x = None.
Proof.
  intros Hs. unfold lane_val.
  destruct (g !! i); simpl; [|done]. destruct (readF i); simpl; [|done].
  destruct (Z.to_nat steps) eqn:E; [lia | done].
Qed.

Lemma lane_val_empty_id dt steps readF g i x v :
  lane_val None dt steps readF g i x = Some v → v = x.
Proof.
  destruct (decide (steps ≤ 0)%Z); [by apply lane_val_nonpos_id|].
  rewrite lane_val_empty_pos by lia. done.
Qed.

Lemma skew_val_rule rule dt steps h F g i x g1 g2 UL UR LL LR :
  g !! i = Some g1 → g !! (i + h) = Some g2 →
  read2 F 0 0 = Some UL → read2 F 0 1 = Some UR →
  read2 F 1 0 = Some LL → read2 F 1 1 = Some LR →
  skew_val (Some rule) dt steps h F g i x
  = Some (block_loop rule UL UR LL LR g1 g2 dt (Z.to_nat steps) x).
Proof.
  intros Hg1 Hg2 H00 H01 H10 H11. unfold skew_val.
  rewrite Hg1, Hg2, H00, H01, H10, H11. simpl. apply for_loop_skew.
Qed.

Lemma skew_val_nonpos method dt steps h F g i x :
  (steps ≤ 0)%Z → is_Some (g !! i) → is_Some (g !! (i + h)) →
  is_Some (read2 F 0 0) → is_Some (read2 F 0 1) →
  is_Some (read2 F 1 0) → is_Some (read2 F 1 1) →
  skew_val method dt steps h F g i x = Some x.
Proof.
  intros Hs [? Hg1] [? Hg2] [? H00] [? H01] [? H10] [? H11]. unfold skew_val.
  rewrite Hg1, Hg2, H00, H01, H10, H11. simpl. by rewrite Z2Nat.nonpos.
Qed.

Lemma skew_val_nonpos_id method dt steps h F g i x v :
  (steps ≤ 0)%Z → skew_val method dt steps h F g i x = Some v → v = x.
Proof.
  intros Hs. unfold skew_val. rewrite Z2Nat.nonpos by done.
  destruct (g !! i), (g !! (i + h)), (read2 F 0 0), (read2 F 0 1),
    (read2 F 1 0), (read2 F 1 1); simpl; congruence.
Qed.

Lemma skew_val_empty_pos dt steps h F g i x :
  (0 < steps)%Z → skew_val None dt steps h F g i x = None.
Proof.
  intros Hs. unfold skew_val.
  destruct (g !! i), (g !! (i + h)), (read2 F 0 0), (read2 F 0 1),
    (read2 F 1 0), (read2 F 1 1); simpl; try done.
  destruct (Z.to_nat steps) eqn:E; [lia|]. by destruct x.
Qed.

Lemma skew_val_empty_id dt steps h F g i x v :
  skew_val None dt steps h F g i x = Some v → v = x.
Proof.
  destruct (decide (steps ≤ 0)%Z); [by apply skew_val_nonpos_id|].
  rewrite skew_val_empty_pos by lia. done.
Qed.

Lemma lane_val_defined method dt steps readF g i x :
  is_Some (g !! i) → is_Some (readF i) →
  (steps ≤ 0)%Z ∨ is_Some method →
  is_Some (lane_val method dt steps readF g i x).
Proof.
  intros Hg HF [Hs|[rule ->]].
  - rewrite lane_val_nonpos by done. eauto.
  - destruct Hg as [g_i Hg], HF as [F_i HF].
    erewrite lane_val_rule by done. eauto.
Qed.

Lemma skew_val_defined method dt steps h F g i x :
  is_Some (g !! i) → is_Some (g !! (i + h)) →
  is_Some (read2 F 0 0) → is_Some (read2 F 0 1) →
  is_Some (read2 F 1 0) → is_Some (read2 F 1 1) →
  (steps ≤ 0)%Z ∨ is_Some method →
  is_Some (skew_val method dt steps h F g i x).
Proof.
  intros Hg1 Hg2 H00 H01 H10 H11 [Hs|[rule ->]].
  - rewrite skew_val_nonpos by done. eauto.
  - destruct Hg1 as [? Hg1], Hg2 as [? Hg2], H00 as [? H00], H01 as [? H01],
      H10 as [? H10], H11 as [? H11].
    erewrite skew_val_rule by done. eauto.
Qed.

Lemma lane_val_take method dt steps readF g N i x :
  i < N →
  lane_val method dt steps readF (take N g) i x
  = lane_val method dt steps readF g i x.
Proof. intros Hi. unfold lane_val. by rewrite lookup_take_lt. Qed.

Lemma skew_val_take method dt steps h F g N i x :
  i + h < N →
  skew_val method dt steps h F (take N g) i x
  = skew_val method dt steps h F g i x.
Proof. intros Hi. unfold skew_val. by rewrite !lookup_take_lt by lia. Qed.

(** *** The kernels on a store whose [F] and [g] are known *)

Lemma general_solver_thread method dt steps N F g b t m :
  F_a m = F → g_a m = g →
  general_solver method dt steps N b threadsPerBlock t m
  = slot_thread (lane_val method dt steps (λ tid, read2 F tid tid) g)
      N (b * threadsPerBlock + t) m.
Proof. intros <- <-. apply general_solver_slot. Qed.

Lemma compact_diagonal_solver_thread method dt steps N F g b t m :
  F_a m = F → g_a m = g →
  compact_diagonal_solver method dt steps N b threadsPerBlock t m
  = slot_thread (lane_val method dt steps (λ _, read2 F 0 0) g)
      N (b * threadsPerBlock + t) m.
Proof. intros <- <-. apply compact_diagonal_solver_slot. Qed.

Lemma compact_skew_symmetric_solver_thread method dt steps N F g b t m :
  F_a m = F → g_a m = g →
  compact_skew_symmetric_solver method dt steps N b threadsPerBlock t m
  = pair_thread (skew_val method dt steps (N / 2) F g)
      (N / 2) (b * threadsPerBlock + t) m.
Proof. intros <- <-. apply compact_skew_symmetric_solver_pair. Qed.

(** *** A launch of single-slot lanes with a resolved rule *)

Lemma launch_lanes_rule kernel readF rule F x0 g dt steps :
  (∀ b t m, F_a m = F → g_a m = g →
     kernel b threadsPerBlock t m
     = slot_thread (lane_val (Some rule) dt steps readF g) (length x0)
         (b * threadsPerBlock + t) m) →
  length x0 ≤ length g →
  (∀ i, i < length x0 → is_Some (readF i)) →
  ∃ x0', launch kernel ((length x0 + threadsPerBlock - 1) / threadsPerBlock)
           threadsPerBlock (Tensors F x0 g) = Some (Tensors F x0' g)
       ∧ length x0' = length x0
       ∧ ∀ i x_i g_i F_i, x0 !! i = Some x_i → g !! i = Some g_i →
           readF i = Some F_i →
           x0' !! i = Some (lane_loop rule F_i g_i dt (Z.to_nat steps) x_i).
Proof.
  intros Hk Hlen HF.
  destruct (launch_slot_result kernel _ F x0 g Hk) as (x0' & Hrun & Hl & Hlook).
  { intros i x Hx. pose proof (lookup_lt_Some _ _ _ Hx) as Hi.
    destruct (lookup_lt_is_Some_2 g i) as [g_i Hg]; [lia|].
    destruct (HF i Hi) as [F_i HFi].
    rewrite (lane_val_rule _ _ _ _ _ _ _ g_i F_i) by done. eauto. }
  exists x0'. split; [exact Hrun|]. split; [exact Hl|].
  intros i x_i g_i F_i Hx Hg HFi. rewrite (Hlook i x_i Hx).
  by apply lane_val_rule.
Qed.

(** *** A launch of the block kernel with a resolved rule *)




(** *** The General case with a resolved rule *)


(** *** Frame, definedness and identity of a whole call *)

Lemma solve_cuda_frame F x0 g dt steps name m' :
  solve_cuda F x0 g dt steps name = Some m' →
  F_a m' = F ∧ g_a m' = g ∧ length (x0_a m') = length x0.
Proof.
  unfold solve_cuda, launch. intros Hrun.
  destruct (length F) as [|[|[|n]]];
    apply run_threads_frame in Hrun; try exact Hrun; clear Hrun;
    intros [b t] m m1; simpl;
    rewrite ?general_solver_slot, ?compact_diagonal_solver_slot,
      ?compact_skew_symmetric_solver_pair;
    first [apply slot_thread_frame | apply pair_thread_frame].
Qed.

Lemma solve_cuda_defined F x0 g dt steps name :
  coupling_in_range F (length x0) →
  length g = length x0 →
  (steps ≤ 0)%Z ∨ is_Some (h_methods !! name) →
  is_Some (solve_cuda F x0 g dt steps name).
Proof.
  intros HF Hg Hm. unfold coupling_in_range in HF.
  destruct (decide (length F = 1)) as [E1|N1];
    [|destruct (decide (length F = 2)) as [E2|N2]].
  - rewrite E1 in HF. rewrite solve_cuda_diagonal by done.
    destruct (launch_slot_result
                (compact_diagonal_solver (h_methods !! name) dt steps
                   (length x0))
                (lane_val (h_methods !! name) dt steps (λ _, read2 F 0 0) g)
                F x0 g) as (x0' & -> & _).
    + intros b t m. apply compact_diagonal_solver_thread.
    + intros i x Hx. apply lookup_lt_Some in Hx.
      apply lane_val_defined; [apply lookup_lt_is_Some_2; lia | done..].
    + eauto.
  - rewrite E2 in HF. destruct HF as (H00 & H01 & H10 & H11).
    rewrite solve_cuda_block by done.
    pose proof (Nat.Div0.mul_div_le (length x0) 2) as Hhalf.
    set (h := length x0 / 2) in *.
    destruct (launch_pair_result
                (compact_skew_symmetric_solver (h_methods !! name) dt steps
                   (length x0))
                (skew_val (h_methods !! name) dt steps h F g)
                F x0 g) as (x0' & -> & _).
    + intros b t m. apply compact_skew_symmetric_solver_thread.
    + fold h. intros i Hi. unfold pair_val. simpl.
      destruct (lookup_lt_is_Some_2 x0 i) as [x1 ->]; [lia|].
      destruct (lookup_lt_is_Some_2 x0 (i + h)) as [x2 ->]; [lia|].
      simpl. apply skew_val_defined; try done; apply lookup_lt_is_Some_2; lia.
    + eauto.
  - assert (Hdiag : ∀ i, i < length x0 → is_Some (read2 F i i)).
    { destruct (length F) as [|[|[|n]]]; done. }
    rewrite solve_cuda_general by done.
    destruct (launch_slot_result
                (general_solver (h_methods !! name) dt steps (length x0))
                (lane_val (h_methods !! name) dt steps (λ i, read2 F i i) g)
                F x0 g) as (x0' & -> & _).
    + intros b t m. apply general_solver_thread.
    + intros i x Hx. apply lookup_lt_Some in Hx.
      apply lane_val_defined;
        [apply lookup_lt_is_Some_2; lia | by apply Hdiag | done].
    + eauto.
Qed.

(** When the loop body never runs, or the handle is empty, a call that
    returns has changed nothing. *)
Lemma solve_cuda_id F x0 g dt steps name m' :
  (steps ≤ 0)%Z ∨ h_methods !! name = None →
  solve_cuda F x0 g dt steps name = Some m' → m' = Tensors F x0 g.
Proof.
  intros Hm.
  destruct (decide (length F = 1)) as [E1|N1];
    [|destruct (decide (length F = 2)) as [E2|N2]].
  - rewrite solve_cuda_diagonal by done.
    rewrite (launch_slot _
               (lane_val (h_methods !! name) dt steps (λ _, read2 F 0 0) g)
               (length x0))
      by (intros b t m; apply compact_diagonal_solver_thread).
    apply run_threads_slot_id. intros i x v.
    destruct Hm as [Hs| ->];
      [by apply lane_val_nonpos_id | apply lane_val_empty_id].
  - rewrite solve_cuda_block by done.
    rewrite (launch_pair _
               (skew_val (h_methods !! name) dt steps (length x0 / 2) F g)
               (length x0 / 2))
      by (intros b t m; apply compact_skew_symmetric_solver_thread).
    apply run_threads_pair_id. intros i x v.
    destruct Hm as [Hs| ->];
      [by apply skew_val_nonpos_id | apply skew_val_empty_id].
  - rewrite solve_cuda_general by done.
    rewrite (launch_slot _
               (lane_val (h_methods !! name) dt steps (λ i, read2 F i i) g)
               (length x0))
      by (intros b t m; apply general_solver_thread).
    apply run_threads_slot_id. intros i x v.
    destruct Hm as [Hs| ->];
      [by apply lane_val_nonpos_id | apply lane_val_empty_id].
Qed.

End Kernels.

(** * The claims of the specification *)

Section Claims.
Context {T : Type} `{Arith T}.
Implicit Types (rule : method_t T).

(** C3 (integration rules).  For all inputs [(F_value, x_current,
    g_value, dt)] the Euler rule returns [F_value * g_value * dt] and the
    RK4 rule returns [(f1 + 2*f2 + 2*f3 + f4) / 6] with the four stages of
    section 4.1; neither result depends on [x_current]. *)
Theorem integration_rules :
  (∀ F_value x_current g_value dt,
     euler_method F_value x_current g_value dt
     = euler_spec F_value x_current g_value dt)
  ∧ (∀ F_value x_current g_value dt,
       rk4_method F_value x_current g_value dt
       = rk4_spec F_value x_current g_value dt)
  ∧ (∀ F_value x_current x_other g_value dt,
       euler_method F_value x_current g_value dt
       = euler_method F_value x_other g_value dt)
  ∧ (∀ F_value x_current x_other g_value dt,
       rk4_method F_value x_current g_value dt
       = rk4_method F_value x_other g_value dt).
Proof. repeat split. Qed.





(** C7, as the code has it (step-count handling).  No step count is
    rejected: for every step count that is zero or negative and any valid
    inputs, in every structural case and for every method name,
    [solve_cuda] returns normally with [F], [g] and every element of [x0]
    unchanged. *)
Theorem nonpositive_steps_no_op F x0 g dt steps name :
  (steps ≤ 0)%Z →
  length g = length x0 →
  coupling_in_range F (length x0) →
  solve_cuda F x0 g dt steps name = Some (Tensors F x0 g).
Proof.
  intros Hs Hg HF.
  destruct (solve_cuda_defined F x0 g dt steps name) as [m' Hm']; auto.
  rewrite Hm'. f_equal. eapply solve_cuda_id; [|exact Hm']. by left.
Qed.

(** C5, as the code has it (unknown method name).  A name other than
    "Euler" and "RK4" is not rejected: the table lookup yields an empty
    handle and the kernel is launched with it.  A call that returns has
    left [x0] unchanged; with valid inputs it does return when [steps] is
    zero or negative, the handle never being invoked; when [steps] is
    positive and there is a lane (a pair, in the block case) to run, the
    lanes invoke the empty handle and the call has no defined result. *)
Theorem unknown_method_no_check F x0 g dt steps name :
  name ≠ "Euler" → name ≠ "RK4" →
  (∀ m', solve_cuda F x0 g dt steps name = Some m' → m' = Tensors F x0 g)
  ∧ ((steps ≤ 0)%Z → length g = length x0 →
     coupling_in_range F (length x0) →
     solve_cuda F x0 g dt steps name = Some (Tensors F x0 g))
  ∧ ((0 < steps)%Z →
     (if decide (length F = 2) then 2 ≤ length x0 else 1 ≤ length x0) →
     fails (solve_cuda F x0 g dt steps name)).
Proof.
  intros Hn1 Hn2.
  pose proof (h_methods_unknown name Hn1 Hn2) as Hnone.
  split; [|split].
  - intros m'. apply solve_cuda_id. by right.
  - intros Hs Hg HF.
    destruct (solve_cuda_defined F x0 g dt steps name) as [m' Hm']; auto.
    rewrite Hm'. f_equal. eapply solve_cuda_id; [|exact Hm']. by left.
  - intros Hs HN. unfold fails. case_decide as E2.
    + rewrite solve_cuda_block, Hnone by done.
      apply (launch_pair_None _
               (skew_val None dt steps (length x0 / 2) F g) F x0 g 0).
      * intros b t m. apply compact_skew_symmetric_solver_thread.
      * apply Nat.div_str_pos. lia.
      * apply pair_val_None. intros x. by apply skew_val_empty_pos.
    + destruct (lookup_lt_is_Some_2 x0 0) as [x Hx]; [lia|].
      destruct (decide (length F = 1)) as [E1|N1].
      * rewrite solve_cuda_diagonal, Hnone by done.
        apply (launch_slot_None _
                 (lane_val None dt steps (λ _, read2 F 0 0) g) F x0 g 0 x);
          [|done|by apply lane_val_empty_pos].
        intros b t m. apply compact_diagonal_solver_thread.
      * rewrite solve_cuda_general, Hnone by done.
        apply (launch_slot_None _
                 (lane_val None dt steps (λ i, read2 F i i) g) F x0 g 0 x);
          [|done|by apply lane_val_empty_pos].
        intros b t m. apply general_solver_thread.
Qed.

(** C8 (frame condition).  In every structural case a call that returns
    has written to [x0] only: [F] and [g] are what they were and [x0] has
    kept its length; and with valid inputs and a registered rule the call
    does return. *)
Theorem frame_condition F x0 g dt steps name :
  (∀ m', solve_cuda F x0 g dt steps name = Some m' →
     F_a m' = F ∧ g_a m' = g ∧ length (x0_a m') = length x0)
  ∧ (coupling_in_range F (length x0) → length g = length x0 →
     is_Some (h_methods !! name) →
     ∃ x0', solve_cuda F x0 g dt steps name = Some (Tensors F x0' g)
          ∧ length x0' = length x0).
Proof.
  split; [intros m'; apply solve_cuda_frame|].
  intros HF Hg Hm.
  destruct (solve_cuda_defined F x0 g dt steps name) as [m' Hm']; auto.
  destruct (solve_cuda_frame _ _ _ _ _ _ _ Hm') as (HF' & Hg' & Hlen).
  exists (x0_a m'). split; [|done]. rewrite Hm'. f_equal.
  destruct m'; simpl in *; by subst.
Qed.

(** C9, as the code has it (single lane).  For [N = 1] the General and
    the Compact-Diagonal case whose [F[0][0]] is the same value [c] give
    the same [x0[0]], the result of the lane loop with [c]; the Compact
    Block case pairs lane [i] with lane [i + N/2] for [i < N/2 = 0], so it
    runs no pair and returns [x0[0]] unchanged. *)
Theorem single_lane_cases Fgen Fdiag Fblk (x gv : T) dt steps name rule c :
  length Fgen ≠ 1 → length Fgen ≠ 2 → read2 Fgen 0 0 = Some c →
  length Fdiag = 1 → read2 Fdiag 0 0 = Some c →
  length Fblk = 2 →
  h_methods !! name = Some rule →
  x0_a <$> solve_cuda Fgen [x] [gv] dt steps name
  = Some [lane_loop rule c gv dt (Z.to_nat steps) x]
  ∧ x0_a <$> solve_cuda Fdiag [x] [gv] dt steps name
    = Some [lane_loop rule c gv dt (Z.to_nat steps) x]
  ∧ solve_cuda Fblk [x] [gv] dt steps name = Some (Tensors Fblk [x] [gv]).
Proof.
  intros Hg1 Hg2 Hgc Hd1 Hdc Hb2 Hname. split; [|split].
  - rewrite solve_cuda_general, Hname by done.
    destruct (launch_lanes_rule
                (general_solver (Some rule) dt steps (length [x]))
                (λ i, read2 Fgen i i) rule Fgen [x] [gv] dt steps)
      as (x0' & -> & Hl & Hlook).
    { intros b t m. apply general_solver_thread. }
    { done. }
    { intros i Hi. simpl in Hi. replace i with 0 by lia. rewrite Hgc. eauto. }
    specialize (Hlook 0 x gv c eq_refl eq_refl Hgc).
    destruct x0' as [|a [|]]; simpl in *; by simplify_eq.
  - rewrite solve_cuda_diagonal, Hname by done.
    destruct (launch_lanes_rule
                (compact_diagonal_solver (Some rule) dt steps (length [x]))
                (λ _, read2 Fdiag 0 0) rule Fdiag [x] [gv] dt steps)
      as (x0' & -> & Hl & Hlook).
    { intros b t m. apply compact_diagonal_solver_thread. }
    { done. }
    { intros i _. rewrite Hdc. eauto. }
    specialize (Hlook 0 x gv c eq_refl eq_refl Hdc).
    destruct x0' as [|a [|]]; simpl in *; by simplify_eq.
  - rewrite solve_cuda_block by done.
    rewrite (launch_pair _
               (skew_val (h_methods !! name) dt steps 0 Fblk [gv]) 0).
    + apply run_threads_pair_0.
    + intros b t m HF Hg.
      apply (compact_skew_symmetric_solver_thread _ _ _ (length [x])); done.
Qed.

(** C6, as the code has it (mismatched shapes).  No shape is checked and
    no call is rejected for its shapes.  When [g] is longer than [x0] its
    surplus entries are ignored, and the call returns as it does for [g]
    cut to the length of [x0]; in the block case with [N] odd the call
    returns normally, [x0] having been handed to the kernel.  Nothing is
    stated for the calls in which a lane reads past [g] or past [F]. *)
Theorem shape_mismatch_no_check F x0 g dt steps name :
  (length x0 ≤ length g →
   x0_a <$> solve_cuda F x0 g dt steps name
   = x0_a <$> solve_cuda F x0 (take (length x0) g) dt steps name)
  ∧ (length x0 ≤ length g →
     coupling_in_range F (length x0) →
     is_Some (h_methods !! name) →
     is_Some (solve_cuda F x0 g dt steps name))
  ∧ (∀ h, length F = 2 → coupling_in_range F (length x0) →
       length x0 = 2 * h + 1 → length g = length x0 →
       is_Some (h_methods !! name) →
       ∃ x0', solve_cuda F x0 g dt steps name = Some (Tensors F x0' g)
            ∧ length x0' = length x0).
Proof.
  assert (Htake : length x0 ≤ length g →
            x0_a <$> solve_cuda F x0 g dt steps name
            = x0_a <$> solve_cuda F x0 (take (length x0) g) dt steps name).
  { intros Hg.
    destruct (decide (length F = 1)) as [E1|N1];
      [|destruct (decide (length F = 2)) as [E2|N2]].
    - rewrite !solve_cuda_diagonal by done.
      rewrite (launch_slot _
                 (lane_val (h_methods !! name) dt steps (λ _, read2 F 0 0) g)
                 (length x0))
        by (intros b t m; apply compact_diagonal_solver_thread).
      rewrite (launch_slot _
                 (lane_val (h_methods !! name) dt steps (λ _, read2 F 0 0)
                    (take (length x0) g)) (length x0))
        by (intros b t m; apply compact_diagonal_solver_thread).
      apply run_threads_slot_x0; [done|].
      intros i x Hi. by rewrite lane_val_take.
    - rewrite !solve_cuda_block by done.
      pose proof (Nat.Div0.mul_div_le (length x0) 2) as Hhalf.
      rewrite (launch_pair _
                 (skew_val (h_methods !! name) dt steps (length x0 / 2) F g)
                 (length x0 / 2))
        by (intros b t m; apply compact_skew_symmetric_solver_thread).
      rewrite (launch_pair _
                 (skew_val (h_methods !! name) dt steps (length x0 / 2) F
                    (take (length x0) g)) (length x0 / 2))
        by (intros b t m; apply compact_skew_symmetric_solver_thread).
      apply run_threads_pair_x0; [done|].
      intros i x Hi. rewrite skew_val_take; [done | lia].
    - rewrite !solve_cuda_general by done.
      rewrite (launch_slot _
                 (lane_val (h_methods !! name) dt steps (λ i, read2 F i i) g)
                 (length x0))
        by (intros b t m; apply general_solver_thread).
      rewrite (launch_slot _
                 (lane_val (h_methods !! name) dt steps (λ i, read2 F i i)
                    (take (length x0) g)) (length x0))
        by (intros b t m; apply general_solver_thread).
      apply run_threads_slot_x0; [done|].
      intros i x Hi. by rewrite lane_val_take. }
  split; [exact Htake|]. split.
  - intros Hg HF Hm. specialize (Htake Hg).
    destruct (solve_cuda_defined F x0 (take (length x0) g) dt steps name)
      as [m' Hm']; auto.
    { by apply length_take_le. }
    rewrite Hm' in Htake.
    destruct (solve_cuda F x0 g dt steps name); [eauto | done].
  - intros h E2 HF _ Hg Hm.
    destruct (solve_cuda_defined F x0 g dt steps name) as [m' Hm']; auto.
    destruct (solve_cuda_frame _ _ _ _ _ _ _ Hm') as (HF' & Hg' & Hlen).
    exists (x0_a m'). split; [|done]. rewrite Hm'. f_equal.
    destruct m'; simpl in *; by subst.
Qed.

End Claims.

(** * Further properties of the launch and of the kernels *)

Section ThreadAlgebra.
Context {T : Type}.
Implicit Types (m : tensors T).

Lemma obind_Some_r {A} (o : option A) : o ≫= Some = o.
Proof. by destruct o. Qed.

Lemma obind_assoc {A B C} (o : option A) (f : A → option B) (k : B → option C) :
  (o ≫= f) ≫= k = o ≫= (λ a, f a ≫= k).
Proof. by destruct o. Qed.

Lemma obind_ext {A B} (o : option A) (f k : A → option B) :
  (∀ a, o = Some a → f a = k a) → o ≫= f = o ≫= k.
Proof. destruct o; simpl; [|done]. intros Hfk. by apply Hfk. Qed.


Lemma write_x0_comm i j v w m :
  i ≠ j → write_x0 i v (write_x0 j w m) = write_x0 j w (write_x0 i v m).
Proof.
  intros Hij. unfold write_x0. simpl. f_equal.
  by apply list_insert_insert_ne.
Qed.

Lemma write_x0_twice i v w m : write_x0 i v (write_x0 i w m) = write_x0 i v m.
Proof. unfold write_x0. simpl. f_equal. apply list_insert_insert_eq. Qed.

(** *** Threads of distinct lanes commute *)

Lemma slot_thread_comm val val' N i j m :
  i ≠ j →
  slot_thread val N i m ≫= slot_thread val' N j
  = slot_thread val' N j m ≫= slot_thread val N i.
Proof.
  intros Hij.
  destruct (decide (i < N)) as [Hi|Hi].
  2:{ rewrite (slot_thread_ge val N i m) by done. simpl.
      destruct (slot_thread val' N j m) as [m'|]; simpl; [|done].
      by rewrite slot_thread_ge. }
  destruct (decide (j < N)) as [Hj|Hj].
  2:{ rewrite (slot_thread_ge val' N j m) by done. simpl.
      destruct (slot_thread val N i m) as [m'|]; simpl; [|done].
      by rewrite slot_thread_ge. }
  rewrite (slot_thread_lt val N i m), (slot_thread_lt val' N j m) by done.
  destruct (x0_a m !! i) as [x|] eqn:Hx, (x0_a m !! j) as [y|] eqn:Hy; simpl.
  - destruct (val i x) as [v|] eqn:Hv, (val' j y) as [w|] eqn:Hw; simpl;
      rewrite ?slot_thread_lt by done;
      rewrite ?write_x0_lookup_ne by done;
      rewrite ?Hx, ?Hy; simpl; rewrite ?Hv, ?Hw; simpl; try done.
    f_equal. by apply write_x0_comm.
  - destruct (val i x) as [v|] eqn:Hv; simpl; [|done].
    rewrite slot_thread_lt by done. rewrite write_x0_lookup_ne by done.
    by rewrite Hy.
  - destruct (val' j y) as [w|] eqn:Hw; simpl; [|done].
    rewrite slot_thread_lt by done. rewrite write_x0_lookup_ne by done.
    by rewrite Hx.
  - done.
Qed.

Lemma pair_thread_comm val val' h i j m :
  i ≠ j →
  pair_thread val h i m ≫= pair_thread val' h j
  = pair_thread val' h j m ≫= pair_thread val h i.
Proof.
  intros Hij.
  destruct (decide (i < h)) as [Hi|Hi].
  2:{ rewrite (pair_thread_ge val h i m) by done. simpl.
      destruct (pair_thread val' h j m) as [m'|]; simpl; [|done].
      by rewrite pair_thread_ge. }
  destruct (decide (j < h)) as [Hj|Hj].
  2:{ rewrite (pair_thread_ge val' h j m) by done. simpl.
      destruct (pair_thread val h i m) as [m'|]; simpl; [|done].
      by rewrite pair_thread_ge. }
  rewrite (pair_thread_val val h i m), (pair_thread_val val' h j m) by done.
  destruct (pair_val val h m i) as [v|] eqn:Hv,
    (pair_val val' h m j) as [w|] eqn:Hw; simpl;
    rewrite ?pair_thread_val by done;
    rewrite ?pair_val_write by done;
    rewrite ?Hv, ?Hw; simpl; try done.
  f_equal.
  rewrite (write_x0_comm i (j + h)) by lia.
  rewrite (write_x0_comm i j) by lia.
  rewrite (write_x0_comm (i + h) (j + h)) by lia.
  rewrite (write_x0_comm (i + h) j) by lia.
  done.
Qed.

(** *** A thread that runs its two computations in a row *)

Lemma slot_thread_seq val1 val2 N i m :
  slot_thread (λ i x, val1 i x ≫= val2 i) N i m
  = slot_thread val1 N i m ≫= slot_thread val2 N i.
Proof.
  destruct (decide (i < N)) as [Hi|Hi].
  2:{ rewrite !slot_thread_ge by done. simpl. by rewrite slot_thread_ge. }
  rewrite !slot_thread_lt by done.
  destruct (x0_a m !! i) as [x|] eqn:Hx; simpl; [|done].
  destruct (val1 i x) as [v|] eqn:Hv; simpl; [|done].
  rewrite slot_thread_lt by done.
  rewrite (write_x0_lookup_eq _ _ _ _ Hx). simpl.
  destruct (val2 i v) as [w|]; simpl; [|done].
  by rewrite write_x0_twice.
Qed.

Lemma pair_thread_seq val1 val2 h i m :
  pair_thread (λ i x, val1 i x ≫= val2 i) h i m
  = pair_thread val1 h i m ≫= pair_thread val2 h i.
Proof.
  destruct (decide (i < h)) as [Hi|Hi].
  2:{ rewrite !pair_thread_ge by done. simpl. by rewrite pair_thread_ge. }
  rewrite !pair_thread_lt by done.
  destruct (x0_a m !! i) as [x1|] eqn:Hx1; simpl; [|done].
  destruct (x0_a m !! (i + h)) as [x2|] eqn:Hx2; simpl; [|done].
  destruct (val1 i (x1, x2)) as [v|] eqn:Hv; simpl; [|done].
  rewrite pair_thread_lt by done.
  assert (Ha : x0_a (write_x0 (i + h) v.2 (write_x0 i v.1 m)) !! i = Some v.1).
  { rewrite write_x0_lookup_ne by lia. by eapply write_x0_lookup_eq. }
  assert (Hb : x0_a (write_x0 (i + h) v.2 (write_x0 i v.1 m)) !! (i + h)
               = Some v.2).
  { eapply write_x0_lookup_eq. by rewrite write_x0_lookup_ne by lia. }
  rewrite Ha, Hb. simpl. destruct v as [v1 v2]. simpl.
  destruct (val2 i (v1, v2)) as [w|]; simpl; [|done].
  f_equal.
  rewrite (write_x0_comm i (i + h)) by lia. by rewrite !write_x0_twice.
Qed.

(** *** Reordering and splitting a run *)

Lemma run_threads_commute_one {A} (th : A → tensors T → option (tensors T))
    (t : tensors T → option (tensors T)) (ids : list A) :
  (∀ a m, a ∈ ids → t m ≫= th a = th a m ≫= t) →
  ∀ m, t m ≫= run_threads th ids = run_threads th ids m ≫= t.
Proof.
  induction ids as [|a ids IH]; intros Hc m; simpl.
  { by rewrite obind_Some_r. }
  rewrite <- obind_assoc, Hc by (by left).
  rewrite !obind_assoc. apply obind_ext. intros m' _.
  apply IH. intros b m1 Hb. apply Hc. by right.
Qed.

Lemma run_threads_perm {A} (th : A → tensors T → option (tensors T)) l l' :
  (∀ a b m, th a m ≫= th b = th b m ≫= th a) →
  l ≡ₚ l' → ∀ m, run_threads th l m = run_threads th l' m.
Proof.
  intros Hc. induction 1 as [|a l l' _ IH|a b l|l1 l2 l3 _ IH1 _ IH2];
    intros m; simpl.
  - done.
  - apply obind_ext. intros m' _. apply IH.
  - by rewrite <- !obind_assoc, Hc.
  - by rewrite IH1.
Qed.

Lemma run_threads_seq
    (th1 th2 th12 : nat → tensors T → option (tensors T)) ids :
  (∀ i m, th12 i m = th1 i m ≫= th2 i) →
  (∀ i j m, i ≠ j → th2 i m ≫= th1 j = th1 j m ≫= th2 i) →
  NoDup ids →
  ∀ m, run_threads th12 ids m
       = run_threads th1 ids m ≫= run_threads th2 ids.
Proof.
  intros H12 Hc. induction 1 as [|i ids Hnin Hnd IH]; intros m; simpl; [done|].
  rewrite H12, !obind_assoc. apply obind_ext. intros m1 _.
  rewrite <- obind_assoc.
  rewrite <- (run_threads_commute_one th1 (th2 i) ids).
  - rewrite obind_assoc. apply obind_ext. intros m2 _. apply IH.
  - intros j m' Hj. apply Hc. by intros ->.
Qed.





(** A run of kernel threads given by (block, thread) pairs, as a run of
    slot or pair threads over their thread ids. *)
Lemma run_kernel_slot kernel (val : nat → T → option T) N tpb
    (l : list (nat * nat)) m :
  (∀ b t m', F_a m' = F_a m → g_a m' = g_a m →
     kernel b tpb t m' = slot_thread val N (b * tpb + t) m') →
  run_threads (λ bt, kernel bt.1 tpb bt.2) l m
  = run_threads (slot_thread val N)
      ((λ bt : nat * nat, bt.1 * tpb + bt.2) <$> l) m.
Proof.
  intros Hk. rewrite <- run_threads_fmap.
  apply (run_threads_ext (λ m', F_a m' = F_a m ∧ g_a m' = g_a m)).
  - done.
  - intros [b t] m1 [HF Hg]. by apply Hk.
  - intros [b t] m1 m2 [HF Hg] Hth. simpl in Hth.
    apply slot_thread_frame in Hth as (-> & -> & _). done.
Qed.

Lemma run_kernel_pair kernel (val : nat → T * T → option (T * T)) h tpb
    (l : list (nat * nat)) m :
  (∀ b t m', F_a m' = F_a m → g_a m' = g_a m →
     kernel b tpb t m' = pair_thread val h (b * tpb + t) m') →
  run_threads (λ bt, kernel bt.1 tpb bt.2) l m
  = run_threads (pair_thread val h)
      ((λ bt : nat * nat, bt.1 * tpb + bt.2) <$> l) m.
Proof.
  intros Hk. rewrite <- run_threads_fmap.
  apply (run_threads_ext (λ m', F_a m' = F_a m ∧ g_a m' = g_a m)).
  - done.
  - intros [b t] m1 [HF Hg]. by apply Hk.
  - intros [b t] m1 m2 [HF Hg] Hth. simpl in Hth.
    apply pair_thread_frame in Hth as (-> & -> & _). done.
Qed.

End ThreadAlgebra.

Section LoopAlgebra.
Context {T : Type} `{Arith T}.
Implicit Types (rule : method_t T).

Lemma for_loop_add {A} n k (body : A → option A) a :
  for_loop (n + k) body a = for_loop n body a ≫= for_loop k body.
Proof.
  revert a. induction n as [|n IH]; intros a; simpl; [done|].
  rewrite obind_assoc. apply obind_ext. intros a' _. apply IH.
Qed.

Lemma lane_val_add method dt a b readF g i x :
  (0 ≤ a)%Z → (0 ≤ b)%Z →
  lane_val method dt (a + b) readF g i x
  = lane_val method dt a readF g i x ≫= lane_val method dt b readF g i.
Proof.
  intros Ha Hb. unfold lane_val. rewrite Z2Nat.inj_add by done.
  destruct (g !! i) as [g_in|]; simpl; [|done].
  destruct (readF i) as [F_in|]; simpl; [|done].
  apply for_loop_add.
Qed.

Lemma skew_val_add method dt a b h F g i x :
  (0 ≤ a)%Z → (0 ≤ b)%Z →
  skew_val method dt (a + b) h F g i x
  = skew_val method dt a h F g i x ≫= skew_val method dt b h F g i.
Proof.
  intros Ha Hb. unfold skew_val. rewrite Z2Nat.inj_add by done.
  destruct (g !! i), (g !! (i + h)), (read2 F 0 0), (read2 F 0 1),
    (read2 F 1 0), (read2 F 1 1); simpl; try done.
  apply for_loop_add.
Qed.

Lemma run_slot_compose (val_a val_b val_ab : nat → T → option T) N ids
    (m : tensors T) :
  (∀ i x, val_ab i x = val_a i x ≫= val_b i) →
  NoDup ids →
  run_threads (slot_thread val_ab N) ids m
  = run_threads (slot_thread val_a N) ids m
    ≫= run_threads (slot_thread val_b N) ids.
Proof.
  intros Hab Hnd.
  rewrite <- (run_threads_seq (slot_thread val_a N) (slot_thread val_b N)
               (slot_thread (λ i x, val_a i x ≫= val_b i) N)).
  - apply (run_threads_ext (λ _, True)); [done| |done].
    intros i m1 _. unfold slot_thread. case_decide; [|done].
    apply obind_ext. intros x _. by rewrite Hab.
  - intros i m1. apply slot_thread_seq.
  - intros i j m1 Hij. by apply slot_thread_comm.
  - done.
Qed.

Lemma run_pair_compose (val_a val_b val_ab : nat → T * T → option (T * T))
    h ids (m : tensors T) :
  (∀ i x, val_ab i x = val_a i x ≫= val_b i) →
  NoDup ids →
  run_threads (pair_thread val_ab h) ids m
  = run_threads (pair_thread val_a h) ids m
    ≫= run_threads (pair_thread val_b h) ids.
Proof.
  intros Hab Hnd.
  rewrite <- (run_threads_seq (pair_thread val_a h) (pair_thread val_b h)
               (pair_thread (λ i x, val_a i x ≫= val_b i) h)).
  - apply (run_threads_ext (λ _, True)); [done| |done].
    intros i m1 _. unfold pair_thread. case_decide; [|done].
    apply obind_ext. intros x1 _. apply obind_ext. intros x2 _.
    by rewrite Hab.
  - intros i m1. apply pair_thread_seq.
  - intros i j m1 Hij. by apply pair_thread_comm.
  - done.
Qed.

Lemma tensors_eta (m : tensors T) F g :
  F_a m = F → g_a m = g → Tensors F (x0_a m) g = m.
Proof. intros <- <-. by destruct m. Qed.

(** *** The registered rules ignore their state argument *)





End LoopAlgebra.

Section Extras.
Context {T : Type} `{Arith T}.
Implicit Types (rule : method_t T) (m : tensors T).

(** X1 (steps compose).  For non-negative [a] and [b], a call with
    [a + b] steps is a call with [a] steps followed by a call with [b]
    steps on the state it returned, in every structural case, for every
    method name and whether or not the calls have a defined result. *)
Theorem steps_compose F x0 g dt a b name :
  (0 ≤ a)%Z → (0 ≤ b)%Z →
  solve_cuda F x0 g dt (a + b) name
  = m1 ← solve_cuda F x0 g dt a name; solve_cuda F (x0_a m1) g dt b name.
Proof.
  intros Ha Hb.
  destruct (decide (length F = 1)) as [E1|N1];
    [|destruct (decide (length F = 2)) as [E2|N2]].
  - rewrite !solve_cuda_diagonal by done.
    rewrite !(launch_slot _
                (lane_val (h_methods !! name) dt _ (λ _, read2 F 0 0) g)
                (length x0))
      by (intros b' t m; apply compact_diagonal_solver_thread).
    rewrite (run_slot_compose
               (lane_val (h_methods !! name) dt a (λ _, read2 F 0 0) g)
               (lane_val (h_methods !! name) dt b (λ _, read2 F 0 0) g))
      by (first [apply NoDup_seq | intros; by apply lane_val_add]).
    apply obind_ext. intros m1 Hm1.
    apply (run_threads_frame _ (slot_thread_frame _ _)) in Hm1
      as (HF & Hg & Hlen). simpl in HF, Hg, Hlen.
    rewrite solve_cuda_diagonal by done.
    rewrite (launch_slot _
               (lane_val (h_methods !! name) dt b (λ _, read2 F 0 0) g)
               (length (x0_a m1)))
      by (intros b' t m; apply compact_diagonal_solver_thread).
    by rewrite Hlen, tensors_eta.
  - rewrite !solve_cuda_block by done.
    rewrite !(launch_pair _
                (skew_val (h_methods !! name) dt _ (length x0 / 2) F g)
                (length x0 / 2))
      by (intros b' t m; apply compact_skew_symmetric_solver_thread).
    rewrite (run_pair_compose
               (skew_val (h_methods !! name) dt a (length x0 / 2) F g)
               (skew_val (h_methods !! name) dt b (length x0 / 2) F g))
      by (first [apply NoDup_seq | intros; by apply skew_val_add]).
    apply obind_ext. intros m1 Hm1.
    apply (run_threads_frame _ (pair_thread_frame _ _)) in Hm1
      as (HF & Hg & Hlen). simpl in HF, Hg, Hlen.
    rewrite solve_cuda_block by done.
    rewrite (launch_pair _
               (skew_val (h_methods !! name) dt b (length (x0_a m1) / 2) F g)
               (length (x0_a m1) / 2))
      by (intros b' t m; apply compact_skew_symmetric_solver_thread).
    by rewrite Hlen, tensors_eta.
  - rewrite !solve_cuda_general by done.
    rewrite !(launch_slot _
                (lane_val (h_methods !! name) dt _ (λ i, read2 F i i) g)
                (length x0))
      by (intros b' t m; apply general_solver_thread).
    rewrite (run_slot_compose
               (lane_val (h_methods !! name) dt a (λ i, read2 F i i) g)
               (lane_val (h_methods !! name) dt b (λ i, read2 F i i) g))
      by (first [apply NoDup_seq | intros; by apply lane_val_add]).
    apply obind_ext. intros m1 Hm1.
    apply (run_threads_frame _ (slot_thread_frame _ _)) in Hm1
      as (HF & Hg & Hlen). simpl in HF, Hg, Hlen.
    rewrite solve_cuda_general by done.
    rewrite (launch_slot _
               (lane_val (h_methods !! name) dt b (λ i, read2 F i i) g)
               (length (x0_a m1)))
      by (intros b' t m; apply general_solver_thread).
    by rewrite Hlen, tensors_eta.
Qed.

(** X2 (schedule independence).  The threads of a launch may be taken in
    any order: running the kernel over any permutation of the grid's
    (block, thread) pairs gives the result of the launch, for each of the
    three kernels, on every store and for every handle. *)
Theorem schedule_independent method dt steps N blocks tpb
    (l : list (nat * nat)) m :
  l ≡ₚ grid blocks tpb →
  run_threads (λ bt, general_solver method dt steps N bt.1 tpb bt.2) l m
  = launch (general_solver method dt steps N) blocks tpb m
  ∧ run_threads (λ bt, compact_diagonal_solver method dt steps N bt.1 tpb bt.2)
      l m
    = launch (compact_diagonal_solver method dt steps N) blocks tpb m
  ∧ run_threads
      (λ bt, compact_skew_symmetric_solver method dt steps N bt.1 tpb bt.2) l m
    = launch (compact_skew_symmetric_solver method dt steps N) blocks tpb m.
Proof.
  intros Hp. unfold launch. split; [|split].
  - rewrite !(run_kernel_slot _
                (lane_val method dt steps (λ i, read2 (F_a m) i i) (g_a m)) N)
      by (intros b t m' HF Hg; by rewrite general_solver_slot, HF, Hg).
    apply run_threads_perm; [|by apply fmap_Permutation].
    intros i j m1. destruct (decide (i = j)) as [->|Hij]; [done|].
    by apply slot_thread_comm.
  - rewrite !(run_kernel_slot _
                (lane_val method dt steps (λ _, read2 (F_a m) 0 0) (g_a m)) N)
      by (intros b t m' HF Hg; by rewrite compact_diagonal_solver_slot, HF, Hg).
    apply run_threads_perm; [|by apply fmap_Permutation].
    intros i j m1. destruct (decide (i = j)) as [->|Hij]; [done|].
    by apply slot_thread_comm.
  - rewrite !(run_kernel_pair _
                (skew_val method dt steps (N / 2) (F_a m) (g_a m)) (N / 2))
      by (intros b t m' HF Hg;
          by rewrite compact_skew_symmetric_solver_pair, HF, Hg).
    apply run_threads_perm; [|by apply fmap_Permutation].
    intros i j m1. destruct (decide (i = j)) as [->|Hij]; [done|].
    by apply pair_thread_comm.
Qed.





(** X7 (empty state vector).  With an empty [x0] no block is launched:
    the call returns at once with the store unchanged, whatever [F], [g],
    [dt], [steps] and the method name are. *)
Theorem empty_state_returns F g dt steps name :
  solve_cuda F [] g dt steps name = Some (Tensors F [] g).
Proof.
  unfold solve_cuda, launch.
  replace ((length (@nil T) + threadsPerBlock - 1) / threadsPerBlock)
    with 0 by (by vm_compute).
  by destruct (length F) as [|[|[|n]]].
Qed.

(** X8 (block case without a pair).  When [F] has two rows and [x0] holds
    at most one element, [x0_size / 2] is 0 and no thread passes the
    guard: the call returns with the store unchanged and reads nothing,
    whatever the rows of [F], [g], [steps] and the method name are. *)
Theorem block_without_pair F x0 g dt steps name :
  length F = 2 → length x0 ≤ 1 →
  solve_cuda F x0 g dt steps name = Some (Tensors F x0 g).
Proof.
  intros E2 Hlen. rewrite solve_cuda_block by done.
  assert (Hh : length x0 / 2 = 0) by (apply Nat.div_small; lia).
  rewrite (launch_pair _
             (skew_val (h_methods !! name) dt steps (length x0 / 2) F g) 0).
  - apply run_threads_pair_0.
  - intros b t m HF Hg. rewrite <- Hh at 2.
    by apply compact_skew_symmetric_solver_thread.
Qed.

End Extras.

(** * The claims on concrete inputs *)

(** The model evaluated in binary64. *)
Example euler_method_run : (euler_method 2 7 3 0.5 = 3)%float.
Proof. vm_compute. reflexivity. Qed.

Example rk4_method_run :
  (rk4_method 1 0 1 0.5 = 0x1.716aaaaaaaaabp-2)%float.
Proof. vm_compute. reflexivity. Qed.

Example general_run :
  x0_a <$> solve_cuda ex_F3 ex_x3 ex_g3 ex_dt 2 "Euler"
  = Some [2; 4; 6]%float.
Proof. vm_compute. reflexivity. Qed.

Example compact_diagonal_run :
  x0_a <$> solve_cuda ex_F1 ex_x3 ex_g3 ex_dt 2 "RK4"
  = Some [0x1.4855555555556p+1; 0x1.c855555555556p+1;
          0x1.242aaaaaaaaabp+2]%float.
Proof. vm_compute. reflexivity. Qed.

Example compact_block_run :
  x0_a <$> solve_cuda ex_F2 ex_x4 ex_g4 ex_dt 3 "Euler"
  = Some [2.5; 3.5; 3; 4]%float.
Proof. vm_compute. reflexivity. Qed.

(** A matrix of three rows and one column with two lanes: the accessor
    takes [F_a[1][1]] at offset [1 * 1 + 1 = 2] of the buffer, where
    [F[2][0] = 3] lies. *)
Example column_matrix_run :
  x0_a <$> solve_cuda [[1]; [2]; [3]]%float [1; 2]%float [1; 1]%float
             ex_dt 1 "Euler"
  = Some [1.5; 3.5]%float.
Proof. vm_compute. reflexivity. Qed.

(** An unknown name and a step to run: the lanes invoke the empty handle. *)
Example unknown_method_run :
  solve_cuda ex_F3 ex_x3 ex_g3 ex_dt 1 "Heun" = None.
Proof. vm_compute. reflexivity. Qed.





Lemma nonpositive_steps_no_op_witness :
  solve_cuda ex_F3 ex_x3 ex_g3 ex_dt (-3) "RK4"
  = Some (Tensors ex_F3 ex_x3 ex_g3).
Proof.
  apply (nonpositive_steps_no_op ex_F3 ex_x3 ex_g3 ex_dt (-3) "RK4").
  - lia.
  - reflexivity.
  - intros i Hi. destruct i as [|[|[|i]]]; simpl in *;
      [eexists; reflexivity .. | lia].
Defined.

(** C7 as stated fails: a negative step count is not rejected; the call
    returns normally. *)
Lemma negative_steps_not_rejected :
  solve_cuda ex_F3 ex_x3 ex_g3 ex_dt (-3) "Euler"
  = Some (Tensors ex_F3 ex_x3 ex_g3)
  ∧ ¬ fails (solve_cuda ex_F3 ex_x3 ex_g3 ex_dt (-3) "Euler").
Proof. split; [by vm_compute | unfold fails; by vm_compute]. Qed.

Lemma unknown_method_no_check_witness :
  (∀ m', solve_cuda ex_F3 ex_x3 ex_g3 ex_dt 2 "Heun" = Some m' →
         m' = Tensors ex_F3 ex_x3 ex_g3)
  ∧ ((2 ≤ 0)%Z → length ex_g3 = length ex_x3 →
     coupling_in_range ex_F3 (length ex_x3) →
     solve_cuda ex_F3 ex_x3 ex_g3 ex_dt 2 "Heun"
     = Some (Tensors ex_F3 ex_x3 ex_g3))
  ∧ ((0 < 2)%Z →
     (if decide (length ex_F3 = 2) then 2 ≤ length ex_x3
      else 1 ≤ length ex_x3) →
     fails (solve_cuda ex_F3 ex_x3 ex_g3 ex_dt 2 "Heun")).
Proof.
  apply (unknown_method_no_check ex_F3 ex_x3 ex_g3 ex_dt 2 "Heun");
    discriminate.
Defined.

(** C5 as stated fails: with an unknown name and no step to run the call
    returns normally. *)
Lemma unknown_method_not_rejected :
  solve_cuda ex_F3 ex_x3 ex_g3 ex_dt 0 "Heun"
  = Some (Tensors ex_F3 ex_x3 ex_g3)
  ∧ ¬ fails (solve_cuda ex_F3 ex_x3 ex_g3 ex_dt 0 "Heun").
Proof. split; [by vm_compute | unfold fails; by vm_compute]. Qed.

(** C6 as stated fails: in the block case with [N = 3], and in the
    General case with [g] one entry longer than [x0], the call is not
    rejected; it returns normally and [x0] has changed. *)
Lemma odd_block_not_rejected :
  (solve_cuda ex_F2 ex_x3 ex_g3 ex_dt 1 "Euler"
   = Some (Tensors ex_F2 [1.5; 2; 3]%float ex_g3)
   ∧ ¬ fails (solve_cuda ex_F2 ex_x3 ex_g3 ex_dt 1 "Euler"))
  ∧ (solve_cuda ex_F3 ex_x3 ex_g4 ex_dt 1 "Euler"
     = Some (Tensors ex_F3 [1.5; 3; 4.5]%float ex_g4)
     ∧ ¬ fails (solve_cuda ex_F3 ex_x3 ex_g4 ex_dt 1 "Euler")).
Proof.
  split; (split; [by vm_compute | unfold fails; by vm_compute]).
Qed.

Lemma shape_mismatch_no_check_witness :
  ∃ x0', solve_cuda ex_F2 ex_x3 ex_g3 ex_dt 1 "Euler"
         = Some (Tensors ex_F2 x0' ex_g3)
       ∧ length x0' = length ex_x3.
Proof.
  apply (proj2 (proj2 (shape_mismatch_no_check ex_F2 ex_x3 ex_g3 ex_dt 1
                         "Euler")) 1).
  - reflexivity.
  - repeat split; eexists; reflexivity.
  - reflexivity.
  - reflexivity.
  - eexists. apply h_methods_euler.
Defined.

Lemma frame_condition_witness :
  ∃ x0', solve_cuda ex_F1 ex_x3 ex_g3 ex_dt 4 "RK4"
         = Some (Tensors ex_F1 x0' ex_g3)
       ∧ length x0' = length ex_x3.
Proof.
  apply (proj2 (frame_condition ex_F1 ex_x3 ex_g3 ex_dt 4 "RK4")).
  - eexists. reflexivity.
  - reflexivity.
  - eexists. apply h_methods_rk4.
Defined.

Lemma single_lane_cases_witness :
  x0_a <$> solve_cuda ex_F3 [0%float] [1%float] 1%float 1 "Euler"
  = Some [lane_loop euler_method 1%float 1%float 1%float (Z.to_nat 1) 0%float]
  ∧ x0_a <$> solve_cuda [[1%float]] [0%float] [1%float] 1%float 1 "Euler"
    = Some [lane_loop euler_method 1%float 1%float 1%float (Z.to_nat 1) 0%float]
  ∧ solve_cuda ex_ones2 [0%float] [1%float] 1%float 1 "Euler"
    = Some (Tensors ex_ones2 [0%float] [1%float]).
Proof.
  apply (single_lane_cases ex_F3 [[1%float]] ex_ones2 0%float 1%float
           1%float 1 "Euler" euler_method 1%float);
    solve [discriminate | reflexivity | apply h_methods_euler].
Defined.

(** C9 as stated fails: with one lane and every coupling entry equal to 1
    the General and Compact-Diagonal cases advance [x0[0]] from 0 to 1,
    the Compact Block case leaves it at 0. *)
Lemma single_lane_block_differs :
  x0_a <$> solve_cuda ex_F3 [0%float] [1%float] 1%float 1 "Euler"
  = Some [1%float]
  ∧ x0_a <$> solve_cuda [[1%float]] [0%float] [1%float] 1%float 1 "Euler"
    = Some [1%float]
  ∧ x0_a <$> solve_cuda ex_ones2 [0%float] [1%float] 1%float 1 "Euler"
    = Some [0%float]
  ∧ PrimFloat.eqb 1 0 = false.
Proof. repeat split; by vm_compute. Qed.

(** * The further properties on concrete inputs *)

Lemma steps_compose_witness :
  solve_cuda ex_F2 ex_x4 ex_g4 ex_dt (1 + 2) "RK4"
  = m1 ← solve_cuda ex_F2 ex_x4 ex_g4 ex_dt 1 "RK4";
    solve_cuda ex_F2 (x0_a m1) ex_g4 ex_dt 2 "RK4".
Proof. apply (steps_compose ex_F2 ex_x4 ex_g4 ex_dt 1 2 "RK4"); lia. Defined.

(** The four threads of a block taken last to first. *)
Lemma schedule_independent_witness :
  let method : option (method_t float) := Some euler_method in
  let m := Tensors ex_F3 ex_x3 ex_g3 in
  run_threads (λ bt, general_solver method ex_dt 2 3 bt.1 4 bt.2)
    (reverse (grid 1 4)) m
  = launch (general_solver method ex_dt 2 3) 1 4 m
  ∧ run_threads (λ bt, compact_diagonal_solver method ex_dt 2 3 bt.1 4 bt.2)
      (reverse (grid 1 4)) m
    = launch (compact_diagonal_solver method ex_dt 2 3) 1 4 m
  ∧ run_threads
      (λ bt, compact_skew_symmetric_solver method ex_dt 2 3 bt.1 4 bt.2)
      (reverse (grid 1 4)) m
    = launch (compact_skew_symmetric_solver method ex_dt 2 3) 1 4 m.
Proof.
  apply (schedule_independent (Some euler_method) ex_dt 2 3 1 4
           (reverse (grid 1 4)) (Tensors ex_F3 ex_x3 ex_g3)).
  apply reverse_Permutation.
Defined.




Lemma block_without_pair_witness :
  solve_cuda ex_F2 [7%float] [] ex_dt 5 "Heun"
  = Some (Tensors ex_F2 [7%float] []).
Proof.
  apply (block_without_pair ex_F2 [7%float] [] ex_dt 5 "Heun");
    [reflexivity | simpl; lia].
Defined.
